(** * kiam: the assume-role policy engine of [pkg/server/policy.go]

    A shallow embedding of the policy engine (the composite policy, the
    annotation-match policy, the namespace-permission policy and the three
    decision values) together with the properties stated about it.

    Go values are modelled as follows:
    - a Go [string] is a [string]; [fmt.Sprintf] with [%s] verbs is
      concatenation;
    - a [map[string]string] is a [gmap string string]; indexing a missing key
      yields the zero value, the empty string;
    - a method returning [(Decision, error)] returns an [outcome]: the pair of
      two nilable interface values, or a run-time panic;
    - the [AssumeRolePolicy] interface is an inductive type with one
      constructor per implementation of this package and one more for any
      implementation from elsewhere (a test double, say). *)

From Stdlib Require Import String Ascii List Bool Arith Lia.
From stdpp Require Import base option list strings gmap.

Set Default Proof Using "Type".
Set Warnings "-register-all".
Open Scope string_scope.

(** ** Strings *)

(** [strings.Contains]: [substr] occurs somewhere inside [s]. *)
Fixpoint Contains (s substr : string) : bool :=
  String.prefix substr s ||
  match s with
  | EmptyString => false
  | String _ s' => Contains s' substr
  end.

(** ** Collaborator data *)

(** Modelled from the spec: [sts.RoleIdentity] is declared outside
    [policy.go]; an identity is an immutable value with a name and a canonical
    identifier.  [policy.go] reads the fields [Name] and [ARN]. *)
Record RoleIdentity := { Name : string; ARN : string }.

(** [v1.Pod], reduced to the two attributes the engine reads: the namespace
    name and the annotation map of its object metadata. *)
Record Pod := { pod_namespace : string; pod_annotations : gmap string string }.

(** [v1.Namespace], reduced to its annotation map. *)
Record Namespace := { ns_annotations : gmap string string }.

(** Go map indexing: the zero value for a missing key. *)
Definition index (m : gmap string string) (key : string) : string :=
  default "" (m !! key).

(** ** Decisions *)

(** The three implementations of the [Decision] interface. *)
Inductive Decision :=
| allowed
| forbidden (requested annotated : string)
| namespacePolicyForbidden (expression role : string).

Definition IsAllowed (d : Decision) : bool :=
  match d with
  | allowed => true
  | forbidden _ _ => false
  | namespacePolicyForbidden _ _ => false
  end.

Definition Explanation (d : Decision) : string :=
  match d with
  | allowed => ""
  | forbidden requested annotated =>
      "requested '" +:+ requested +:+ "' but annotated with '" +:+ annotated +:+ "', forbidden"
  | namespacePolicyForbidden expression role =>
      "namespace policy expression '" +:+ expression +:+ "' forbids role '" +:+ role +:+ "'"
  end.

(** What a call of [IsAllowedAssumeRole] does: it returns a pair of a nilable
    [Decision] and a nilable [error], or it panics. *)
Inductive outcome (error : Type) :=
| Returns (decision : option Decision) (err : option error)
| Panics.
Arguments Returns {error} decision err.
Arguments Panics {error}.

(** The Go convention for [(value, error)] results: exactly one of the two is
    non-nil. *)
Definition exactly_one {error : Type} (o : outcome error) : Prop :=
  match o with
  | Returns decision err =>
      (err ≠ None → decision = None) ∧ (err = None → decision ≠ None)
  | Panics => False
  end.

(** ** What the engine takes from outside [policy.go]

    The types [context.Context], [error] and [k8s.PodGetter], the two
    annotation keys of package [k8s], the method [RoleIdentity.Equals] of
    package [sts], and the functions [regexp.Compile] and
    [Regexp.MatchString] of Go's [regexp] package. *)
Class Externals := {
  context_Context : Type;
  error : Type;
  PodGetter : Type;
  AnnotationIAMRoleKey : string;
  AnnotationPermittedKey : string;
  Equals : RoleIdentity → RoleIdentity → bool;
  Regexp : Type;
  Compile : string → Regexp + error;
  MatchString : Regexp → string → bool;
}.

Section Server.
Context `{Externals}.

(** [sts.ARNResolver]: an interface with the single method [Resolve], which
    returns an identity or an error. *)
Definition ARNResolver : Type := string → RoleIdentity + error.

(** [k8s.NamespaceFinder]: an interface with the single method
    [FindNamespace], which returns a namespace or an error. *)
Definition NamespaceFinder : Type := context_Context → string → Namespace + error.

(** Modelled from the spec: [k8s.PodRole] is defined outside [policy.go]; the
    annotated role string is read directly from the workload's role
    annotation. *)
Definition PodRole (pod : Pod) : string :=
  index (pod_annotations pod) AnnotationIAMRoleKey.

(** The implementations of the [AssumeRolePolicy] interface: the three struct
    types of this package, each with its fields, and any other
    implementation, given by what its method does. *)
Inductive AssumeRolePolicy :=
| CompositeAssumeRolePolicy (policies : list AssumeRolePolicy)
| RequestingAnnotatedRolePolicy (pods : PodGetter) (resolver : ARNResolver)
| NamespacePermittedRoleNamePolicy
    (namespaces : NamespaceFinder) (resolver : ARNResolver) (strict : bool)
| ExternalAssumeRolePolicy (impl : context_Context → string → Pod → outcome error).

Definition Policies (p : list AssumeRolePolicy) : AssumeRolePolicy :=
  CompositeAssumeRolePolicy p.

Definition NewRequestingAnnotatedRolePolicy (p : PodGetter) (resolver : ARNResolver)
  : AssumeRolePolicy :=
  RequestingAnnotatedRolePolicy p resolver.

Definition NewNamespacePermittedRoleNamePolicy
  (strictRegexp : bool) (n : NamespaceFinder) (resolver : ARNResolver) : AssumeRolePolicy :=
  NamespacePermittedRoleNamePolicy n resolver strictRegexp.

(** The loop of [CompositeAssumeRolePolicy.IsAllowedAssumeRole], over the way
    a member is invoked.  Calling [IsAllowed] on a nil [Decision] panics. *)
Definition range_policies {P : Type} (invoke : P → outcome error)
  : list P → outcome error :=
  fix loop (policies : list P) : outcome error :=
    match policies with
    | [] => Returns (Some allowed) None
    | policy :: rest =>
        match invoke policy with
        | Panics => Panics
        | Returns _ (Some err) => Returns None (Some err)
        | Returns None None => Panics
        | Returns (Some decision) None =>
            if negb (IsAllowed decision) then Returns (Some decision) None
            else loop rest
        end
    end.

(** [RequestingAnnotatedRolePolicy.IsAllowedAssumeRole]. *)
Definition RequestingAnnotatedRolePolicy_IsAllowedAssumeRole
  (resolver : ARNResolver) (ctx : context_Context) (role : string) (pod : Pod)
  : outcome error :=
  match resolver (PodRole pod) with
  | inr err => Returns None (Some err)
  | inl annotatedIdentiy =>
      match resolver role with
      | inr err => Returns None (Some err)
      | inl requestedIdentity =>
          if Equals annotatedIdentiy requestedIdentity then Returns (Some allowed) None
          else Returns (Some (forbidden role (Name annotatedIdentiy))) None
      end
  end.

(** The string handed to [regexp.Compile]: the two branches on [p.strict]
    differ in it only. *)
Definition pattern (strict : bool) (expression : string) : string :=
  if strict then "^" +:+ expression +:+ "$" else expression.

(** [NamespacePermittedRoleNamePolicy.IsAllowedAssumeRole]. *)
Definition NamespacePermittedRoleNamePolicy_IsAllowedAssumeRole
  (namespaces : NamespaceFinder) (resolver : ARNResolver) (strict : bool)
  (ctx : context_Context) (role : string) (pod : Pod) : outcome error :=
  match resolver role with
  | inr err => Returns None (Some err)
  | inl requestedIdentity =>
      match namespaces ctx (pod_namespace pod) with
      | inr err => Returns None (Some err)
      | inl ns =>
          let expression := index (ns_annotations ns) AnnotationPermittedKey in
          if String.eqb expression "" then
            Returns (Some (namespacePolicyForbidden "(empty)" role)) None
          else
            match Compile (pattern strict expression) with
            | inr err => Returns None (Some err)
            | inl re =>
                if negb (MatchString re (ARN requestedIdentity)) then
                  Returns (Some (namespacePolicyForbidden expression (ARN requestedIdentity))) None
                else Returns (Some allowed) None
            end
      end
  end.

(** Method dispatch on the dynamic type of the policy. *)
Fixpoint IsAllowedAssumeRole (p : AssumeRolePolicy)
  (ctx : context_Context) (role : string) (pod : Pod) {struct p} : outcome error :=
  match p with
  | CompositeAssumeRolePolicy policies =>
      range_policies (fun policy => IsAllowedAssumeRole policy ctx role pod) policies
  | RequestingAnnotatedRolePolicy _ resolver =>
      RequestingAnnotatedRolePolicy_IsAllowedAssumeRole resolver ctx role pod
  | NamespacePermittedRoleNamePolicy namespaces resolver strict =>
      NamespacePermittedRoleNamePolicy_IsAllowedAssumeRole namespaces resolver strict ctx role pod
  | ExternalAssumeRolePolicy impl => impl ctx role pod
  end.

End Server.

(** ** Go's [regexp] package, on a fragment of its syntax

    The namespace policy compiles the permission expression with
    [regexp.Compile] and searches the canonical identifier with
    [MatchString].  What follows is that pair on the fragment of RE2 syntax
    made of literal characters, escaped punctuation, [.], [^], [$], capturing
    groups, alternation and the operators [*], [+] and [?] (greedy or not),
    over ASCII text.  Outside the fragment (character classes, counted
    repetition, flags, escapes of letters and digits, bytes above 127)
    [Compile] answers [OutsideFragment]. *)
Module regexp.

(** [syntax.Regexp], with binary concatenation and alternation. *)
Inductive Regexp :=
| OpEmptyMatch
| OpLiteral (c : ascii)
| OpAnyCharNotNL
| OpBeginText
| OpEndText
| OpCapture (sub : Regexp)
| OpStar (sub : Regexp)
| OpPlus (sub : Regexp)
| OpQuest (sub : Regexp)
| OpConcat (sub1 sub2 : Regexp)
| OpAlternate (sub1 sub2 : Regexp).

(** [syntax.ErrorCode], and the answer for syntax outside the fragment. *)
Inductive Error :=
| ErrMissingParen
| ErrUnexpectedParen
| ErrMissingRepeatArgument
| ErrInvalidRepeatOp
| ErrTrailingBackslash
| OutsideFragment.

(** The parser keeps, for the group being read, the alternatives already
    closed by a [|] and the operands of the concatenation being read, both
    latest first; the enclosing groups wait on a stack. *)
Record frame := { alts : list Regexp; items : list Regexp }.

Definition empty_frame : frame := {| alts := []; items := [] |}.

Definition push (re : Regexp) (f : frame) : frame :=
  {| alts := alts f; items := re :: items f |}.

(** [parser.concat]: the operands read since the last marker, as one
    expression; the empty match if there are none. *)
Definition concat (items_rev : list Regexp) : Regexp :=
  match rev items_rev with
  | [] => OpEmptyMatch
  | re :: res => fold_left OpConcat res re
  end.

(** [parser.alternate]: the alternatives of a group, as one expression. *)
Definition alternate (f : frame) : Regexp :=
  match rev (concat (items f) :: alts f) with
  | [] => OpEmptyMatch
  | re :: res => fold_left OpAlternate res re
  end.

(** [parser.parseVerticalBar]. *)
Definition parseVerticalBar (f : frame) : frame :=
  {| alts := concat (items f) :: alts f; items := [] |}.

Definition is_alnum (c : ascii) : bool :=
  let n := nat_of_ascii c in
  ((48 <=? n)%nat && (n <=? 57)%nat) || ((65 <=? n)%nat && (n <=? 90)%nat)
  || ((97 <=? n)%nat && (n <=? 122)%nat).

Definition is_ascii (c : ascii) : bool := (nat_of_ascii c <? 128)%nat.

Definition repeat_op (c : ascii) : option (Regexp → Regexp) :=
  if Ascii.eqb c "*" then Some OpStar
  else if Ascii.eqb c "+" then Some OpPlus
  else if Ascii.eqb c "?" then Some OpQuest
  else None.

(** [parser.repeat]: the operator applies to the operand read last; it is
    refused right after another repetition, and when there is no operand. *)
Definition repeat (op : Regexp → Regexp) (lastRepeat : bool) (f : frame) : frame + Error :=
  if lastRepeat then inr ErrInvalidRepeatOp
  else
    match items f with
    | [] => inr ErrMissingRepeatArgument
    | sub :: rest => inl {| alts := alts f; items := op sub :: rest |}
    end.

Definition starts_with (c : ascii) (t : list ascii) : bool :=
  match t with
  | c' :: _ => Ascii.eqb c' c
  | [] => false
  end.

(** The loop of [syntax.Parse] under the flags of [regexp.Compile]
    ([syntax.Perl]): one pass over the expression, left to right.
    [lastRepeat] says that the token just read was a repetition. *)
Fixpoint parse (t : list ascii) (stack : list frame) (cur : frame) (lastRepeat : bool)
  {struct t} : Regexp + Error :=
  match t with
  | [] =>
      match stack with
      | [] => inl (alternate cur)
      | _ :: _ => inr ErrMissingParen
      end
  | c :: t' =>
      if Ascii.eqb c "(" then
        if starts_with "?" t' then inr OutsideFragment
        else parse t' (cur :: stack) empty_frame false
      else if Ascii.eqb c "|" then parse t' stack (parseVerticalBar cur) false
      else if Ascii.eqb c ")" then
        match stack with
        | [] => inr ErrUnexpectedParen
        | outer :: stack' => parse t' stack' (push (OpCapture (alternate cur)) outer) false
        end
      else if Ascii.eqb c "^" then parse t' stack (push OpBeginText cur) false
      else if Ascii.eqb c "$" then parse t' stack (push OpEndText cur) false
      else if Ascii.eqb c "." then parse t' stack (push OpAnyCharNotNL cur) false
      else if Ascii.eqb c "[" then inr OutsideFragment
      else if Ascii.eqb c "{" then inr OutsideFragment
      else if Ascii.eqb c "\" then
        match t' with
        | [] => inr ErrTrailingBackslash
        | e :: t'' =>
            if is_ascii e && negb (is_alnum e) then parse t'' stack (push (OpLiteral e) cur) false
            else inr OutsideFragment
        end
      else
        match repeat_op c with
        | Some op =>
            match repeat op lastRepeat cur with
            | inr err => inr err
            | inl cur' =>
                match t' with
                | c' :: t'' =>
                    if Ascii.eqb c' "?" then parse t'' stack cur' true
                    else parse t' stack cur' true
                | [] => parse t' stack cur' true
                end
            end
        | None =>
            if is_ascii c then parse t' stack (push (OpLiteral c) cur) false
            else inr OutsideFragment
        end
  end.

Definition Compile (expr : string) : Regexp + Error :=
  parse (list_ascii_of_string expr) [] empty_frame false.

(** *** Matching

    [ends re s i] lists the positions [j] such that [re] matches the text
    [s] from position [i] to position [j].  The text is read one byte at a
    time, which is how Go reads ASCII text; Go reads other text one UTF-8
    rune at a time, so what follows speaks for [regexp] on ASCII text
    only. *)

(** The text is made of ASCII characters. *)
Definition is_ascii_text (s : string) : bool :=
  forallb is_ascii (list_ascii_of_string s).

(** The positions reached from [i] by iterating [step]; an iteration that does
    not advance reaches nothing new, so [fuel] iterations are enough when
    [fuel] bounds the length of the text. *)
Fixpoint star_ends (step : nat → list nat) (fuel : nat) (i : nat) : list nat :=
  i :: match fuel with
       | 0 => []
       | S fuel' =>
           flat_map (fun j => if (i <? j)%nat then star_ends step fuel' j else []) (step i)
       end.

(** The positions that iterating [step] reaches from a position. *)
Inductive reaches (step : nat → list nat) : nat → nat → Prop :=
| reaches_here i : reaches step i i
| reaches_step i j k : j ∈ step i → reaches step j k → reaches step i k.

Definition newline : ascii := ascii_of_nat 10.

Fixpoint ends (re : Regexp) (s : list ascii) (i : nat) {struct re} : list nat :=
  match re with
  | OpEmptyMatch => [i]
  | OpLiteral c =>
      match s !! i with
      | Some c' => if Ascii.eqb c c' then [S i] else []
      | None => []
      end
  | OpAnyCharNotNL =>
      match s !! i with
      | Some c' => if Ascii.eqb c' newline then [] else [S i]
      | None => []
      end
  | OpBeginText => if (i =? 0)%nat then [i] else []
  | OpEndText => if (i =? length s)%nat then [i] else []
  | OpCapture sub => ends sub s i
  | OpStar sub => star_ends (ends sub s) (length s) i
  | OpPlus sub => flat_map (star_ends (ends sub s) (length s)) (ends sub s i)
  | OpQuest sub => i :: ends sub s i
  | OpConcat sub1 sub2 => flat_map (ends sub2 s) (ends sub1 s i)
  | OpAlternate sub1 sub2 => ends sub1 s i ++ ends sub2 s i
  end.

Definition nonempty {A : Type} (l : list A) : bool :=
  match l with
  | [] => false
  | _ :: _ => true
  end.

(** [Regexp.MatchString]: the text contains a match of the expression,
    starting anywhere. *)
Definition MatchString (re : Regexp) (s : string) : bool :=
  let text := list_ascii_of_string s in
  existsb (fun i => nonempty (ends re text i)) (seq 0 (S (length text))).

(** The expression matches the text from its first to its last character. *)
Definition FullMatch (re : Regexp) (s : string) : bool :=
  let text := list_ascii_of_string s in
  existsb (Nat.eqb (length text)) (ends re text 0).

(** What it is for an expression to match the text [s] from position [i] to
    position [j], as the documentation of the syntax has it. *)
Inductive Matches (s : list ascii) : Regexp → nat → nat → Prop :=
| MatchesEmpty i : Matches s OpEmptyMatch i i
| MatchesLiteral c i : s !! i = Some c → Matches s (OpLiteral c) i (S i)
| MatchesAnyChar c i : s !! i = Some c → c ≠ newline → Matches s OpAnyCharNotNL i (S i)
| MatchesBeginText : Matches s OpBeginText 0 0
| MatchesEndText : Matches s OpEndText (length s) (length s)
| MatchesCapture sub i j : Matches s sub i j → Matches s (OpCapture sub) i j
| MatchesStarDone sub i : Matches s (OpStar sub) i i
| MatchesStarMore sub i j k :
    Matches s sub i j → Matches s (OpStar sub) j k → Matches s (OpStar sub) i k
| MatchesPlus sub i j k :
    Matches s sub i j → Matches s (OpStar sub) j k → Matches s (OpPlus sub) i k
| MatchesQuestNone sub i : Matches s (OpQuest sub) i i
| MatchesQuestOne sub i j : Matches s sub i j → Matches s (OpQuest sub) i j
| MatchesConcat sub1 sub2 i j k :
    Matches s sub1 i j → Matches s sub2 j k → Matches s (OpConcat sub1 sub2) i k
| MatchesAlternateLeft sub1 sub2 i j :
    Matches s sub1 i j → Matches s (OpAlternate sub1 sub2) i j
| MatchesAlternateRight sub1 sub2 i j :
    Matches s sub2 i j → Matches s (OpAlternate sub1 sub2) i j.

(** The expression with an anchor on each side. *)
Definition anchored (re : Regexp) : Regexp :=
  OpConcat (OpConcat OpBeginText re) OpEndText.

Definition is_alternate (re : Regexp) : bool :=
  match re with
  | OpAlternate _ _ => true
  | _ => false
  end.

(** The expressions of a list match one after the other. *)
Fixpoint matches_all (s : list ascii) (res : list Regexp) (i k : nat) : Prop :=
  match res with
  | [] => i = k
  | re :: res' => ∃ j, Matches s re i j ∧ matches_all s res' j k
  end.

(** *** The parser after a leading [^]

    The frame in which a [^] was read before everything else. *)
Definition under (f : frame) : frame :=
  {| alts := alts f; items := items f ++ [OpBeginText] |}.

(** The state of the parser in an expression, and its state at the same place
    when the expression comes after a [^]: they differ in the outermost
    frame, as long as no [|] was read there. *)
Inductive seeded : list frame → frame → list frame → frame → Prop :=
| seeded_top cur : alts cur = [] → seeded [] cur [] (under cur)
| seeded_nested top bottom cur :
    alts bottom = [] → seeded (top ++ [bottom]) cur (top ++ [under bottom]) cur.

(** A [|] was read in the outermost frame. *)
Inductive barred : list frame → frame → Prop :=
| barred_top cur : alts cur ≠ [] → barred [] cur
| barred_nested top bottom cur : alts bottom ≠ [] → barred (top ++ [bottom]) cur.

(** *** Expressions that match less

    [re'] matches only where [re] matches. *)
Definition tighter (re' re : Regexp) : Prop :=
  ∀ s i j, Matches s re' i j → Matches s re i j.

Definition is_anchor (re : Regexp) : bool :=
  match re with
  | OpBeginText | OpEndText => true
  | _ => false
  end.

(** Two frames of the parser of which the first holds tighter alternatives
    and tighter operands, with anchors read before them. *)
Definition frame_tighter (f' f : frame) : Prop :=
  Forall2 tighter (alts f') (alts f)
  ∧ ∃ operands anchors,
      items f' = (operands ++ anchors)%list
      ∧ Forall2 tighter operands (items f)
      ∧ Forall (fun re => is_anchor re = true) anchors.

End regexp.

(** ** Predicates on policies *)
Section Behaviour.
Context `{Externals}.

(** A policy follows the Go convention when every implementation from outside
    this package that it reaches returns exactly one of a decision and an
    error. *)
Inductive follows_convention : AssumeRolePolicy → Prop :=
| convention_composite ps :
    Forall follows_convention ps → follows_convention (CompositeAssumeRolePolicy ps)
| convention_annotated pods resolver :
    follows_convention (RequestingAnnotatedRolePolicy pods resolver)
| convention_namespace namespaces resolver strict :
    follows_convention (NamespacePermittedRoleNamePolicy namespaces resolver strict)
| convention_external impl :
    (∀ ctx role pod, exactly_one (impl ctx role pod)) →
    follows_convention (ExternalAssumeRolePolicy impl).

(** The member returns an allowing decision and no error. *)
Definition allows (ctx : context_Context) (role : string) (pod : Pod)
  (p : AssumeRolePolicy) : Prop :=
  ∃ d, IsAllowedAssumeRole p ctx role pod = Returns (Some d) None ∧ IsAllowed d = true.

(** The member returns a denying decision and no error. *)
Definition denies (ctx : context_Context) (role : string) (pod : Pod)
  (p : AssumeRolePolicy) : Prop :=
  ∃ d, IsAllowedAssumeRole p ctx role pod = Returns (Some d) None ∧ IsAllowed d = false.

(** The evaluation of the member succeeds without error. *)
Definition succeeds (ctx : context_Context) (role : string) (pod : Pod)
  (p : AssumeRolePolicy) : Prop :=
  ∃ d, IsAllowedAssumeRole p ctx role pod = Returns (Some d) None.

End Behaviour.

(** What a denial names: the rule it comes from and the values it compared. *)
Definition rule (d : Decision) : string :=
  match d with
  | allowed => ""
  | forbidden _ _ => "annotated with"
  | namespacePolicyForbidden _ _ => "namespace policy expression"
  end.

Definition compared (d : Decision) : list string :=
  match d with
  | allowed => []
  | forbidden requested annotated => [requested; annotated]
  | namespacePolicyForbidden expression role => [expression; role]
  end.

(** ** A concrete setting

    The engine over the [regexp] fragment above, with sample collaborators. *)
Module sample.

Inductive failure :=
| RegexpError (code : regexp.Error)
| ErrorString (msg : string).

Definition compile (expr : string) : regexp.Regexp + failure :=
  match regexp.Compile expr with
  | inl re => inl re
  | inr code => inr (RegexpError code)
  end.

(** The expression that [expr] compiles to, when it does. *)
Definition compiled (expr : string) : regexp.Regexp :=
  match regexp.Compile expr with
  | inl re => re
  | inr _ => regexp.OpEmptyMatch
  end.

(** The annotation keys are those of kiam's [k8s] package.
    Modelled from the spec: [RoleIdentity.Equals] is defined outside
    [policy.go]; two identities are compared by their canonical
    identifier. *)
#[export] Instance externals : Externals := {|
  context_Context := unit;
  error := failure;
  PodGetter := unit;
  AnnotationIAMRoleKey := "iam.amazonaws.com/role";
  AnnotationPermittedKey := "iam.amazonaws.com/permitted";
  Equals := fun i other => String.eqb (ARN i) (ARN other);
  Regexp := regexp.Regexp;
  Compile := compile;
  MatchString := regexp.MatchString;
|}.

(** What follows the last slash of a role: the role itself when it has no
    slash, nothing when it ends in one. *)
Fixpoint base (s : string) : string :=
  match s with
  | EmptyString => EmptyString
  | String c s' =>
      if Contains s' "/" then base s'
      else if Ascii.eqb c "/" then s' else s
  end.

(** A resolver in the manner of kiam's: an ARN is kept and named by what
    follows its last slash, a short name is qualified with the prefix of the
    account, the empty role is refused. *)
Definition resolver : ARNResolver := fun role =>
  if String.eqb role "" then inr (ErrorString "role can't be empty")
  else if String.prefix "arn:" role then inl {| Name := base role; ARN := role |}
  else inl {| Name := role; ARN := "arn:aws:iam::111:role/" +:+ role |}.

(** A resolver that takes the role string as its own canonical identifier. *)
Definition verbatim : ARNResolver := fun role => inl {| Name := role; ARN := role |}.

(** A namespace finder over a table of namespaces. *)
Definition finder (table : gmap string Namespace) : NamespaceFinder := fun _ name =>
  match table !! name with
  | Some ns => inl ns
  | None => inr (ErrorString "namespace not found")
  end.

Definition pod_of (namespace role : string) : Pod :=
  {| pod_namespace := namespace;
     pod_annotations := {[ "iam.amazonaws.com/role" := role ]} |}.

(** A namespace that permits [expression]. *)
Definition permitting (expression : string) : Namespace :=
  {| ns_annotations := {[ "iam.amazonaws.com/permitted" := expression ]} |}.

(** A namespace without annotations. *)
Definition bare : Namespace := {| ns_annotations := ∅ |}.

Definition cluster (expression : string) : gmap string Namespace :=
  {[ "team" := permitting expression; "bare" := bare ]}.

(** A test double that panics when invoked. *)
Definition panicking : AssumeRolePolicy := ExternalAssumeRolePolicy (fun _ _ _ => Panics).

End sample.

(** * Properties *)

(** ** Strings *)

Lemma prefix_append (x s b : string) :
  String.prefix x s = true → String.prefix x (s +:+ b) = true.
Proof.
  revert s. induction x as [|c x IH]; intros s.
  - intros _. by destruct (s +:+ b).
  - destruct s as [|c' s]; simpl; [done|].
    destruct (ascii_dec c c'); [apply IH | done].
Qed.

Lemma prefix_refl (x : string) : String.prefix x x = true.
Proof.
  induction x as [|c x IH]; simpl; [done|].
  destruct (ascii_dec c c); [apply IH | done].
Qed.

Lemma Contains_append_l (s x b : string) :
  Contains s x = true → Contains (s +:+ b) x = true.
Proof.
  induction s as [|c s IH]; cbn [Contains String.append].
  - rewrite orb_false_r. intros Hp. destruct x; [|done]. by destruct b.
  - intros [Hp | Hs]%orb_true_iff; apply orb_true_iff.
    + left. apply (prefix_append x (String c s) b Hp).
    + right. auto.
Qed.

Lemma Contains_append_r (a s x : string) :
  Contains s x = true → Contains (a +:+ s) x = true.
Proof.
  intros Hs. induction a as [|c a IH]; simpl; [done|].
  apply orb_true_iff. right. exact IH.
Qed.

Lemma Contains_refl (x : string) : Contains x x = true.
Proof.
  assert (Hp := prefix_refl x). destruct x; [done|].
  unfold Contains; fold Contains. by rewrite Hp.
Qed.

(** A string built around [x] contains [x]. *)
Lemma Contains_middle (a x b : string) : Contains (a +:+ x +:+ b) x = true.
Proof. apply Contains_append_r, Contains_append_l, Contains_refl. Qed.

Lemma prefix_occurs (x s : string) : String.prefix x s = true → ∃ b, s = x +:+ b.
Proof.
  revert s. induction x as [|c x IH]; intros s Hp; [by exists s|].
  destruct s as [|c' s]; simpl in Hp; [done|].
  destruct (ascii_dec c c') as [->|]; [|done].
  destruct (IH _ Hp) as [b ->]. by exists b.
Qed.

(** [Contains] is the occurrence of a substring. *)
Lemma Contains_occurs (s x : string) :
  Contains s x = true → ∃ a b, s = a +:+ x +:+ b.
Proof.
  induction s as [|c s IH]; cbn [Contains].
  - rewrite orb_false_r. intros [b ->]%prefix_occurs. by exists "", b.
  - intros [[b ->]%prefix_occurs | Hs]%orb_true_iff; [by exists "", b|].
    destruct (IH Hs) as (a & b & ->). by exists (String c a), b.
Qed.

(** ** The composite policy *)

Section Composite.
Context `{Externals}.
Implicit Types (p q : AssumeRolePolicy) (ps pre post : list AssumeRolePolicy).
Implicit Types (ctx : context_Context) (role : string) (pod : Pod).

(** One turn of the loop. *)
Lemma composite_cons p ps ctx role pod :
  IsAllowedAssumeRole (CompositeAssumeRolePolicy (p :: ps)) ctx role pod =
  match IsAllowedAssumeRole p ctx role pod with
  | Panics => Panics
  | Returns _ (Some err) => Returns None (Some err)
  | Returns None None => Panics
  | Returns (Some decision) None =>
      if negb (IsAllowed decision) then Returns (Some decision) None
      else IsAllowedAssumeRole (CompositeAssumeRolePolicy ps) ctx role pod
  end.
Proof. reflexivity. Qed.

(** Members that allow are passed over. *)
Lemma composite_skip pre post ctx role pod :
  Forall (allows ctx role pod) pre →
  IsAllowedAssumeRole (CompositeAssumeRolePolicy (pre ++ post)) ctx role pod =
  IsAllowedAssumeRole (CompositeAssumeRolePolicy post) ctx role pod.
Proof.
  induction 1 as [|p pre (d & Hp & Hd) _ IH]; [done|].
  rewrite <- app_comm_cons, composite_cons, Hp, Hd. exact IH.
Qed.

(** When no member errs or panics, the composite returns a decision, and it
    denies exactly when some member denies. *)
Lemma composite_deny_iff ps ctx role pod :
  Forall (succeeds ctx role pod) ps →
  ∃ d, IsAllowedAssumeRole (CompositeAssumeRolePolicy ps) ctx role pod = Returns (Some d) None
       ∧ (IsAllowed d = false ↔ Exists (denies ctx role pod) ps).
Proof.
  induction 1 as [|p ps [d Hp] _ (d' & IH & Hiff)].
  - exists allowed. split; [done|]. split; [done|]. by intros ?%Exists_nil.
  - rewrite composite_cons, Hp. destruct (IsAllowed d) eqn:Hd; simpl.
    + exists d'. split; [done|]. rewrite Exists_cons, <- Hiff.
      split; [by right|]. intros [(d0 & Hp0 & Hd0) | ?]; [|done].
      rewrite Hp in Hp0. congruence.
    + exists d. split; [done|]. split; [|done]. intros _.
      apply Exists_cons. left. by exists d.
Qed.

(** The first denial is what the composite returns, whatever comes after. *)
Lemma composite_first_denial pre p post d ctx role pod :
  Forall (allows ctx role pod) pre →
  IsAllowedAssumeRole p ctx role pod = Returns (Some d) None →
  IsAllowed d = false →
  IsAllowedAssumeRole (CompositeAssumeRolePolicy (pre ++ p :: post)) ctx role pod
  = Returns (Some d) None.
Proof.
  intros Hpre Hp Hd. rewrite (composite_skip _ _ _ _ _ Hpre), composite_cons, Hp, Hd.
  reflexivity.
Qed.

(** The first error is what the composite returns, whatever comes after. *)
Lemma composite_error pre p post d e ctx role pod :
  Forall (allows ctx role pod) pre →
  IsAllowedAssumeRole p ctx role pod = Returns d (Some e) →
  IsAllowedAssumeRole (CompositeAssumeRolePolicy (pre ++ p :: post)) ctx role pod
  = Returns None (Some e).
Proof.
  intros Hpre Hp. rewrite (composite_skip _ _ _ _ _ Hpre), composite_cons, Hp.
  by destruct d.
Qed.

(** Whatever the members do, a composite that returns hands back exactly one
    of a decision and an error. *)
Lemma composite_returns_one ps ctx role pod d e :
  IsAllowedAssumeRole (CompositeAssumeRolePolicy ps) ctx role pod = Returns d e →
  exactly_one (Returns d e).
Proof.
  induction ps as [|p ps IH].
  - intros [= <- <-]. by split.
  - rewrite composite_cons.
    destruct (IsAllowedAssumeRole p ctx role pod) as [[d0|] [e0|]|]; try done.
    + intros [= <- <-]. by split.
    + destruct (IsAllowed d0); simpl; [exact IH|]. intros [= <- <-]. by split.
    + intros [= <- <-]. by split.
Qed.

End Composite.

(** ** The single policies *)

Section Single.
Context `{Externals}.
Implicit Types (resolver : ARNResolver) (namespaces : NamespaceFinder).
Implicit Types (ctx : context_Context) (role : string) (pod : Pod).

(** The annotation-match policy once both roles are resolved. *)
Lemma annotated_resolved pods resolver ctx role pod annotated requested :
  resolver (PodRole pod) = inl annotated →
  resolver role = inl requested →
  IsAllowedAssumeRole (RequestingAnnotatedRolePolicy pods resolver) ctx role pod =
  Returns (Some (if Equals annotated requested then allowed
                 else forbidden role (Name annotated))) None.
Proof.
  intros Ha Hr. cbn [IsAllowedAssumeRole].
  unfold RequestingAnnotatedRolePolicy_IsAllowedAssumeRole. rewrite Ha, Hr.
  by destruct (Equals annotated requested).
Qed.

(** A resolution failure comes back as it is. *)
Lemma annotated_unresolved pods resolver ctx role pod e :
  resolver (PodRole pod) = inr e ∨
  (∃ annotated, resolver (PodRole pod) = inl annotated) ∧ resolver role = inr e →
  IsAllowedAssumeRole (RequestingAnnotatedRolePolicy pods resolver) ctx role pod =
  Returns None (Some e).
Proof.
  cbn [IsAllowedAssumeRole]. unfold RequestingAnnotatedRolePolicy_IsAllowedAssumeRole.
  intros [-> | [[a ->] ->]]; reflexivity.
Qed.

(** The namespace policy up to the annotation of the namespace. *)
Lemma namespace_found namespaces resolver strict ctx role pod requested ns :
  resolver role = inl requested →
  namespaces ctx (pod_namespace pod) = inl ns →
  IsAllowedAssumeRole (NamespacePermittedRoleNamePolicy namespaces resolver strict) ctx role pod =
  let expression := index (ns_annotations ns) AnnotationPermittedKey in
  if String.eqb expression "" then
    Returns (Some (namespacePolicyForbidden "(empty)" role)) None
  else
    match Compile (pattern strict expression) with
    | inr err => Returns None (Some err)
    | inl re =>
        if MatchString re (ARN requested) then Returns (Some allowed) None
        else Returns (Some (namespacePolicyForbidden expression (ARN requested))) None
    end.
Proof.
  intros Hr Hn. cbn [IsAllowedAssumeRole].
  unfold NamespacePermittedRoleNamePolicy_IsAllowedAssumeRole. rewrite Hr, Hn. cbv zeta.
  destruct (String.eqb _ ""); [done|].
  destruct (Compile _) as [re|]; [|done]. by destruct (MatchString re _).
Qed.

Lemma namespace_unresolved namespaces resolver strict ctx role pod e :
  resolver role = inr e →
  IsAllowedAssumeRole (NamespacePermittedRoleNamePolicy namespaces resolver strict) ctx role pod =
  Returns None (Some e).
Proof.
  intros Hr. cbn [IsAllowedAssumeRole].
  unfold NamespacePermittedRoleNamePolicy_IsAllowedAssumeRole. by rewrite Hr.
Qed.

Lemma namespace_not_found namespaces resolver strict ctx role pod requested e :
  resolver role = inl requested →
  namespaces ctx (pod_namespace pod) = inr e →
  IsAllowedAssumeRole (NamespacePermittedRoleNamePolicy namespaces resolver strict) ctx role pod =
  Returns None (Some e).
Proof.
  intros Hr Hn. cbn [IsAllowedAssumeRole].
  unfold NamespacePermittedRoleNamePolicy_IsAllowedAssumeRole. by rewrite Hr, Hn.
Qed.

(** Each single policy returns exactly one of a decision and an error. *)
Lemma annotated_exactly_one pods resolver ctx role pod :
  exactly_one (IsAllowedAssumeRole (RequestingAnnotatedRolePolicy pods resolver) ctx role pod).
Proof.
  cbn [IsAllowedAssumeRole]. unfold RequestingAnnotatedRolePolicy_IsAllowedAssumeRole.
  destruct (resolver (PodRole pod)) as [a|]; [|by split].
  destruct (resolver role) as [r|]; [|by split].
  by destruct (Equals a r); split.
Qed.

Lemma namespace_exactly_one namespaces resolver strict ctx role pod :
  exactly_one
    (IsAllowedAssumeRole (NamespacePermittedRoleNamePolicy namespaces resolver strict) ctx role pod).
Proof.
  cbn [IsAllowedAssumeRole]. unfold NamespacePermittedRoleNamePolicy_IsAllowedAssumeRole.
  destruct (resolver role) as [r|]; [|by split].
  destruct (namespaces ctx _) as [ns|]; [|by split]. cbv zeta.
  destruct (String.eqb _ ""); [by split|].
  destruct (Compile _) as [re|]; [|by split].
  by destruct (MatchString re _); split.
Qed.

(** Induction over policies, through the members of a composite. *)
Lemma policy_ind (P : AssumeRolePolicy → Prop) :
  (∀ ps, Forall P ps → P (CompositeAssumeRolePolicy ps)) →
  (∀ pods resolver, P (RequestingAnnotatedRolePolicy pods resolver)) →
  (∀ namespaces resolver strict, P (NamespacePermittedRoleNamePolicy namespaces resolver strict)) →
  (∀ impl, P (ExternalAssumeRolePolicy impl)) →
  ∀ p, P p.
Proof.
  intros Hc Ha Hn He. fix IH 1. intros [ps| | |]; [|apply Ha|apply Hn|apply He].
  apply Hc. induction ps as [|p ps IHps]; constructor; [apply IH | exact IHps].
Qed.

(** A composite of members that each return exactly one of a decision and an
    error does so too. *)
Lemma composite_exactly_one ps ctx role pod :
  Forall (fun p => exactly_one (IsAllowedAssumeRole p ctx role pod)) ps →
  exactly_one (IsAllowedAssumeRole (CompositeAssumeRolePolicy ps) ctx role pod).
Proof.
  induction 1 as [|p ps Hp _ IH]; [by split|].
  rewrite composite_cons.
  destruct (IsAllowedAssumeRole p ctx role pod) as [[d|] [e|]|]; simpl in Hp.
  - by split.
  - destruct (IsAllowed d); [exact IH | by split].
  - by split.
  - destruct Hp as [_ Hp]. by destruct Hp.
  - destruct Hp.
Qed.

Lemma convention_exactly_one p ctx role pod :
  follows_convention p → exactly_one (IsAllowedAssumeRole p ctx role pod).
Proof.
  induction p as [ps IH|pods resolver|namespaces resolver strict|impl] using policy_ind;
    intros Hc.
  - apply composite_exactly_one. inversion_clear Hc as [? Hps| | |].
    induction Hps as [|p ps Hp Hps IHps]; [constructor|].
    apply Forall_cons in IH as [IHp IH]. constructor; auto.
  - apply annotated_exactly_one.
  - apply namespace_exactly_one.
  - inversion_clear Hc as [| | |? Himpl]. apply Himpl.
Qed.

(** A denial returned by a composite is the denial of one of its members. *)
Lemma composite_denial_origin ps ctx role pod d :
  IsAllowedAssumeRole (CompositeAssumeRolePolicy ps) ctx role pod = Returns (Some d) None →
  IsAllowed d = false →
  Exists (fun p => IsAllowedAssumeRole p ctx role pod = Returns (Some d) None) ps.
Proof.
  intros Hps Hd. induction ps as [|p ps IH].
  - injection Hps as <-. done.
  - rewrite composite_cons in Hps. apply Exists_cons.
    destruct (IsAllowedAssumeRole p ctx role pod) as [[d0|] [e0|]|]; try done.
    destruct (IsAllowed d0) eqn:Hd0; simpl in Hps; [right; auto|].
    left. by injection Hps as ->.
Qed.

End Single.

(** ** The claims about the composite policy *)

(** C2. For member policies whose evaluations all succeed without error, the
    composite returns a denying decision if and only if some member returns a
    denying decision; the first non-allowing decision is returned as it is,
    whatever policies come after it (they are not invoked, not even one that
    would panic); and the composite of no policy returns the allowing
    decision. *)
Theorem composite_conjunction `{Externals}
  (ctx : context_Context) (role : string) (pod : Pod) :
  (∀ ps, Forall (succeeds ctx role pod) ps →
     ∃ d, IsAllowedAssumeRole (Policies ps) ctx role pod = Returns (Some d) None
          ∧ (IsAllowed d = false ↔ Exists (denies ctx role pod) ps))
  ∧ (∀ pre p post d,
       Forall (allows ctx role pod) pre →
       IsAllowedAssumeRole p ctx role pod = Returns (Some d) None →
       IsAllowed d = false →
       IsAllowedAssumeRole (Policies (pre ++ p :: post)) ctx role pod = Returns (Some d) None)
  ∧ IsAllowedAssumeRole (Policies []) ctx role pod = Returns (Some allowed) None.
Proof.
  split; [|split].
  - intros ps. apply composite_deny_iff.
  - intros pre p post d. apply composite_first_denial.
  - reflexivity.
Qed.

(** C3, as amended. If a member policy returns a non-nil error and every
    member before it returns an allowing decision, the composite returns that
    error, with a nil decision, whatever policies come after that member (they
    are not invoked, not even one that would panic). *)
Theorem composite_first_error `{Externals}
  (ctx : context_Context) (role : string) (pod : Pod)
  (pre : list AssumeRolePolicy) (p : AssumeRolePolicy) (post : list AssumeRolePolicy)
  (d : option Decision) (e : error) :
  Forall (allows ctx role pod) pre →
  IsAllowedAssumeRole p ctx role pod = Returns d (Some e) →
  IsAllowedAssumeRole (Policies (pre ++ p :: post)) ctx role pod = Returns None (Some e).
Proof. apply composite_error. Qed.

(** ** The claims about the annotation-match policy *)

(** C4, as amended. When the requested role and the role the pod is annotated
    with both resolve, the annotation-match policy allows if the two
    identities are equal, and otherwise denies with the explanation
    "requested 'X' but annotated with 'Y', forbidden", where X is the
    requested role string and Y is the name of the identity the annotation
    resolves to. *)
Theorem annotation_match `{Externals}
  (pods : PodGetter) (resolver : ARNResolver)
  (ctx : context_Context) (role : string) (pod : Pod) (annotated requested : RoleIdentity) :
  resolver (PodRole pod) = inl annotated →
  resolver role = inl requested →
  (Equals annotated requested = true →
   IsAllowedAssumeRole (NewRequestingAnnotatedRolePolicy pods resolver) ctx role pod
   = Returns (Some allowed) None)
  ∧ (Equals annotated requested = false →
     ∃ d, IsAllowedAssumeRole (NewRequestingAnnotatedRolePolicy pods resolver) ctx role pod
          = Returns (Some d) None
          ∧ IsAllowed d = false
          ∧ Explanation d = "requested '" +:+ role +:+ "' but annotated with '"
                            +:+ Name annotated +:+ "', forbidden"
          ∧ Contains (Explanation d) role = true
          ∧ Contains (Explanation d) (Name annotated) = true).
Proof.
  intros Ha Hr. unfold NewRequestingAnnotatedRolePolicy.
  rewrite (annotated_resolved _ _ _ _ _ _ _ Ha Hr).
  split; intros ->; [done|].
  exists (forbidden role (Name annotated)). do 3 (split; [done|]). split.
  - apply (Contains_middle "requested '").
  - cbn [Explanation].
    apply (Contains_append_r "requested '"), (Contains_append_r role).
    apply (Contains_middle "' but annotated with '").
Qed.

(** ** The claims about the namespace-permission policy *)

(** C5, as amended. When the namespace of the pod is found and has no
    permission annotation, or an empty one, the policy never allows, whatever
    the requested role: if the requested role resolves, the policy denies with
    the explanation "namespace policy expression '(empty)' forbids role
    '<requested>'", and if it does not, the policy returns the error of the
    resolver. *)
Theorem namespace_without_expression `{Externals}
  (namespaces : NamespaceFinder) (resolver : ARNResolver) (strict : bool)
  (ctx : context_Context) (role : string) (pod : Pod) (ns : Namespace) :
  let policy := NewNamespacePermittedRoleNamePolicy strict namespaces resolver in
  namespaces ctx (pod_namespace pod) = inl ns →
  ns_annotations ns !! AnnotationPermittedKey = None
  ∨ ns_annotations ns !! AnnotationPermittedKey = Some "" →
  (∀ d e, IsAllowedAssumeRole policy ctx role pod = Returns (Some d) e → IsAllowed d = false)
  ∧ (∀ requested, resolver role = inl requested →
       ∃ d, IsAllowedAssumeRole policy ctx role pod = Returns (Some d) None
            ∧ IsAllowed d = false
            ∧ Explanation d
              = "namespace policy expression '(empty)' forbids role '" +:+ role +:+ "'"
            ∧ Contains (Explanation d) "(empty)" = true
            ∧ Contains (Explanation d) role = true)
  ∧ (∀ e, resolver role = inr e →
       IsAllowedAssumeRole policy ctx role pod = Returns None (Some e)).
Proof.
  intros policy Hn Hempty. subst policy. unfold NewNamespacePermittedRoleNamePolicy.
  assert (index (ns_annotations ns) AnnotationPermittedKey = "") as Hindex
    by (unfold index; by destruct Hempty as [-> | ->]).
  assert (∀ requested, resolver role = inl requested →
            IsAllowedAssumeRole (NamespacePermittedRoleNamePolicy namespaces resolver strict)
              ctx role pod
            = Returns (Some (namespacePolicyForbidden "(empty)" role)) None) as Hdenied.
  { intros requested Hr. rewrite (namespace_found _ _ _ _ _ _ _ _ Hr Hn). cbv zeta.
    by rewrite Hindex. }
  split; [|split].
  - intros d e. destruct (resolver role) as [requested|e'] eqn:Hr.
    + rewrite (Hdenied requested eq_refl). by intros [= <- _].
    + by rewrite (namespace_unresolved _ _ _ _ _ _ _ Hr).
  - intros requested Hr. rewrite (Hdenied requested Hr).
    exists (namespacePolicyForbidden "(empty)" role). do 3 (split; [done|]). split.
    + apply (Contains_middle "namespace policy expression '" "(empty)").
    + cbn [Explanation].
      apply (Contains_append_r "namespace policy expression '"), (Contains_append_r "(empty)").
      apply (Contains_middle "' forbids role '").
  - intros e Hr. by apply namespace_unresolved.
Qed.

(** C6. When the requested role resolves, the namespace is found and its
    permission expression is not empty and compiles, the policy matches the
    compiled expression against the canonical identifier of the requested
    identity, not against the requested role string: it allows if the
    expression matches, and otherwise denies with an explanation that names the
    expression and the canonical identifier. *)
Theorem namespace_expression_match `{Externals}
  (namespaces : NamespaceFinder) (resolver : ARNResolver) (strict : bool)
  (ctx : context_Context) (role : string) (pod : Pod)
  (requested : RoleIdentity) (ns : Namespace) (re : Regexp) :
  let expression := index (ns_annotations ns) AnnotationPermittedKey in
  resolver role = inl requested →
  namespaces ctx (pod_namespace pod) = inl ns →
  expression ≠ "" →
  Compile (pattern strict expression) = inl re →
  (MatchString re (ARN requested) = true →
   IsAllowedAssumeRole (NewNamespacePermittedRoleNamePolicy strict namespaces resolver)
     ctx role pod = Returns (Some allowed) None)
  ∧ (MatchString re (ARN requested) = false →
     ∃ d, IsAllowedAssumeRole (NewNamespacePermittedRoleNamePolicy strict namespaces resolver)
            ctx role pod = Returns (Some d) None
          ∧ IsAllowed d = false
          ∧ Explanation d = "namespace policy expression '" +:+ expression
                            +:+ "' forbids role '" +:+ ARN requested +:+ "'"
          ∧ Contains (Explanation d) expression = true
          ∧ Contains (Explanation d) (ARN requested) = true).
Proof.
  intros expression Hr Hn Hne Hre. unfold NewNamespacePermittedRoleNamePolicy.
  rewrite (namespace_found _ _ _ _ _ _ _ _ Hr Hn). cbv zeta. fold expression.
  apply String.eqb_neq in Hne. rewrite Hne, Hre.
  split; intros ->; [done|].
  exists (namespacePolicyForbidden expression (ARN requested)). do 3 (split; [done|]). split.
  - apply (Contains_middle "namespace policy expression '").
  - cbn [Explanation].
    apply (Contains_append_r "namespace policy expression '"), (Contains_append_r expression).
    apply (Contains_middle "' forbids role '").
Qed.

(** ** Failures and denials *)

(** C7, as amended. A failure that a policy meets is never turned into a
    denial.  When the resolution of the annotated or of the requested role
    fails, the annotation-match policy returns a nil decision and the error of
    a failed resolution.  When the resolution of the requested role fails, the
    lookup of the namespace fails, or the string handed to [regexp.Compile]
    for a permission expression that is not empty (the expression itself, or
    in strict mode the expression between [^] and [$]) fails to compile, the
    namespace-permission policy returns a nil decision and one of these
    errors.  The composite returns the error of a member whenever every member
    before it allows, and a denial that it returns is the denial of one of its
    members. *)
Theorem failures_stay_errors `{Externals}
  (ctx : context_Context) (role : string) (pod : Pod) :
  (∀ pods (resolver : ARNResolver),
     (∃ e, resolver (PodRole pod) = inr e) ∨ (∃ e, resolver role = inr e) →
     ∃ e, IsAllowedAssumeRole (NewRequestingAnnotatedRolePolicy pods resolver) ctx role pod
          = Returns None (Some e)
          ∧ (resolver (PodRole pod) = inr e ∨ resolver role = inr e))
  ∧ (∀ (namespaces : NamespaceFinder) (resolver : ARNResolver) strict,
       (∃ e, resolver role = inr e)
       ∨ (∃ e, namespaces ctx (pod_namespace pod) = inr e)
       ∨ (∃ ns e, namespaces ctx (pod_namespace pod) = inl ns
                  ∧ index (ns_annotations ns) AnnotationPermittedKey ≠ ""
                  ∧ Compile (pattern strict (index (ns_annotations ns) AnnotationPermittedKey))
                    = inr e) →
       ∃ e, IsAllowedAssumeRole (NewNamespacePermittedRoleNamePolicy strict namespaces resolver)
              ctx role pod = Returns None (Some e)
            ∧ (resolver role = inr e
               ∨ namespaces ctx (pod_namespace pod) = inr e
               ∨ ∃ expression, Compile (pattern strict expression) = inr e))
  ∧ (∀ pre p post d e,
       Forall (allows ctx role pod) pre →
       IsAllowedAssumeRole p ctx role pod = Returns d (Some e) →
       IsAllowedAssumeRole (Policies (pre ++ p :: post)) ctx role pod = Returns None (Some e))
  ∧ (∀ ps d,
       IsAllowedAssumeRole (Policies ps) ctx role pod = Returns (Some d) None →
       IsAllowed d = false →
       Exists (fun p => IsAllowedAssumeRole p ctx role pod = Returns (Some d) None) ps).
Proof.
  split; [|split; [|split]].
  - intros pods resolver Hfail. unfold NewRequestingAnnotatedRolePolicy.
    destruct (resolver (PodRole pod)) as [a|e] eqn:Ha.
    + destruct Hfail as [[e [=]] | [e Hr]]. exists e. split; [|by right].
      apply annotated_unresolved. right. split; [by exists a | done].
    + exists e. split; [|by left]. apply annotated_unresolved. by left.
  - intros namespaces resolver strict Hfail. unfold NewNamespacePermittedRoleNamePolicy.
    destruct (resolver role) as [r|e] eqn:Hr.
    2:{ exists e. split; [|by left]. by apply namespace_unresolved. }
    destruct (namespaces ctx (pod_namespace pod)) as [ns|e] eqn:Hn.
    2:{ exists e. split; [|by right; left]. by eapply namespace_not_found. }
    destruct Hfail as [[e [=]] | [[e [=]] | (ns' & e & [= <-] & Hne & Hre)]].
    exists e. split; [|right; right; by eexists].
    rewrite (namespace_found _ _ _ _ _ _ _ _ Hr Hn). cbv zeta.
    apply String.eqb_neq in Hne. by rewrite Hne, Hre.
  - intros pre p post d e. apply composite_error.
  - intros ps d. apply composite_denial_origin.
Qed.

(** C8. Whatever the decision, if it allows its explanation is empty, and if
    it denies its explanation is not empty and names the rule and the values
    that were compared. *)
Theorem decision_explanation (d : Decision) :
  (IsAllowed d = true → Explanation d = "")
  ∧ (IsAllowed d = false →
     Explanation d ≠ ""
     ∧ Contains (Explanation d) (rule d) = true
     ∧ Forall (fun value => Contains (Explanation d) value = true) (compared d)).
Proof.
  destruct d as [|requested annotated|expression role].
  - by split.
  - split; [done|]. intros _. split; [done|]. split.
    + apply (Contains_append_r "requested '"), (Contains_append_r requested).
      apply (Contains_middle "' but " "annotated with").
    + cbn [compared Explanation]. repeat apply Forall_cons_2; [| |apply Forall_nil_2].
      * apply (Contains_middle "requested '").
      * apply (Contains_append_r "requested '"), (Contains_append_r requested).
        apply (Contains_middle "' but annotated with '").
  - split; [done|]. intros _. split; [done|]. split.
    + apply (Contains_append_l "namespace policy expression"), Contains_refl.
    + cbn [compared Explanation]. repeat apply Forall_cons_2; [| |apply Forall_nil_2].
      * apply (Contains_middle "namespace policy expression '").
      * apply (Contains_append_r "namespace policy expression '"),
          (Contains_append_r expression).
        apply (Contains_middle "' forbids role '").
Qed.

(** C10. Every policy of this package returns exactly one of a decision and an
    error: a nil decision with a non-nil error, or a non-nil decision with a
    nil error.  So do the annotation-match and the namespace-permission policy
    on every input, so does every policy in which the implementations from
    elsewhere do, and so does a composite of any members whenever it
    returns. *)
Theorem decision_or_error `{Externals}
  (ctx : context_Context) (role : string) (pod : Pod) :
  (∀ pods resolver,
     exactly_one (IsAllowedAssumeRole (NewRequestingAnnotatedRolePolicy pods resolver)
                    ctx role pod))
  ∧ (∀ namespaces resolver strict,
       exactly_one (IsAllowedAssumeRole
                      (NewNamespacePermittedRoleNamePolicy strict namespaces resolver)
                      ctx role pod))
  ∧ (∀ p, follows_convention p → exactly_one (IsAllowedAssumeRole p ctx role pod))
  ∧ (∀ ps d e,
       IsAllowedAssumeRole (Policies ps) ctx role pod = Returns d e →
       exactly_one (Returns d e)).
Proof.
  split; [|split; [|split]].
  - intros pods resolver. apply annotated_exactly_one.
  - intros namespaces resolver strict. apply namespace_exactly_one.
  - intros p. apply convention_exactly_one.
  - intros ps d e. apply composite_returns_one.
Qed.

(** ** The [regexp] fragment

    The matcher agrees with the meaning of the syntax: [MatchString] finds a
    match of the expression somewhere in the text, [FullMatch] a match of the
    whole text. *)

Section Matcher.
Import regexp.
Local Open Scope nat_scope.
Variable s : list ascii.
Implicit Types (step : nat → list nat) (n fuel i j k : nat) (re sub : Regexp).

Lemma star_ends_reaches step fuel i k :
  k ∈ star_ends step fuel i → reaches step i k.
Proof.
  revert i. induction fuel as [|fuel IH]; intros i; cbn [star_ends].
  - intros ->%list_elem_of_singleton. constructor.
  - intros [-> | Hk]%elem_of_cons; [constructor|].
    apply list_elem_of_In, in_flat_map in Hk as (j & Hj%list_elem_of_In & Hk%list_elem_of_In).
    destruct (i <? j)%nat; [|by apply elem_of_nil in Hk].
    by apply (reaches_step _ _ j), IH.
Qed.

(** With steps that stay inside the text, as much fuel as there is text left
    reaches every position that can be reached. *)
Lemma reaches_star_ends step n fuel i k :
  (∀ i j, j ∈ step i → i ≤ j ∧ (i ≤ n → j ≤ n)) →
  reaches step i k → i ≤ n → n - i ≤ fuel → k ∈ star_ends step fuel i.
Proof.
  intros Hstep Hreach. revert fuel.
  induction Hreach as [i|i j k Hj _ IH]; intros fuel Hi Hfuel.
  - destruct fuel; apply elem_of_cons; by left.
  - destruct (Hstep _ _ Hj) as [Hij Hjn]. specialize (Hjn Hi).
    destruct (decide (i = j)) as [<-|Hne]; [by apply IH|].
    destruct fuel as [|fuel]; [lia|]. cbn [star_ends]. apply elem_of_cons. right.
    apply list_elem_of_In, in_flat_map. exists j. split; [by apply list_elem_of_In|].
    apply list_elem_of_In. destruct (Nat.ltb_spec i j); [|lia]. apply IH; lia.
Qed.

Lemma reaches_bounds step n i k :
  (∀ i j, j ∈ step i → i ≤ j ∧ (i ≤ n → j ≤ n)) →
  reaches step i k → i ≤ k ∧ (i ≤ n → k ≤ n).
Proof.
  intros Hstep. induction 1 as [i|i j k Hj _ IH]; [lia|].
  destruct (Hstep _ _ Hj). lia.
Qed.

(** A match never goes backwards and never leaves the text. *)
Lemma ends_bounds re i j :
  j ∈ ends re s i → i ≤ j ∧ (i ≤ length s → j ≤ length s).
Proof.
  revert i j. induction re as [|c| | | |sub IH|sub IH|sub IH|sub IH|sub1 IH1 sub2 IH2|sub1 IH1 sub2 IH2];
    intros i j; cbn [ends].
  - intros ->%list_elem_of_singleton. lia.
  - destruct (s !! i) as [c'|] eqn:Hi; [|by intros ?%elem_of_nil].
    apply lookup_lt_Some in Hi.
    destruct (Ascii.eqb c c'); [|by intros ?%elem_of_nil].
    intros ->%list_elem_of_singleton. lia.
  - destruct (s !! i) as [c'|] eqn:Hi; [|by intros ?%elem_of_nil].
    apply lookup_lt_Some in Hi.
    destruct (Ascii.eqb c' newline); [by intros ?%elem_of_nil|].
    intros ->%list_elem_of_singleton. lia.
  - destruct (i =? 0)%nat; [|by intros ?%elem_of_nil].
    intros ->%list_elem_of_singleton. lia.
  - destruct (i =? length s)%nat; [|by intros ?%elem_of_nil].
    intros ->%list_elem_of_singleton. lia.
  - apply IH.
  - intros Hj%star_ends_reaches. by apply (reaches_bounds (ends sub s)).
  - intros (k & Hk%list_elem_of_In & Hj%list_elem_of_In)%list_elem_of_In%in_flat_map.
    apply IH in Hk. apply star_ends_reaches, (reaches_bounds _ (length s)) in Hj; [lia|done].
  - intros [-> | Hj]%elem_of_cons; [lia | by apply IH].
  - intros (k & Hk%list_elem_of_In & Hj%list_elem_of_In)%list_elem_of_In%in_flat_map.
    apply IH1 in Hk. apply IH2 in Hj. lia.
  - intros [Hj | Hj]%elem_of_app; [by apply IH1 | by apply IH2].
Qed.

Lemma reaches_Matches sub i k :
  (∀ i j, j ∈ ends sub s i → Matches s sub i j) →
  reaches (ends sub s) i k → Matches s (OpStar sub) i k.
Proof.
  intros Hsub. induction 1 as [i|i j k Hj _ IH]; [constructor|].
  eapply MatchesStarMore; [by apply Hsub | exact IH].
Qed.

(** [ends] lists the matches of the expression, no more and no less. *)
Lemma ends_sound re i j : j ∈ ends re s i → Matches s re i j.
Proof.
  revert i j. induction re as [|c| | | |sub IH|sub IH|sub IH|sub IH|sub1 IH1 sub2 IH2|sub1 IH1 sub2 IH2];
    intros i j; cbn [ends].
  - intros ->%list_elem_of_singleton. constructor.
  - destruct (s !! i) as [c'|] eqn:Hi; [|by intros ?%elem_of_nil].
    destruct (Ascii.eqb_spec c c') as [<-|]; [|by intros ?%elem_of_nil].
    intros ->%list_elem_of_singleton. by constructor.
  - destruct (s !! i) as [c'|] eqn:Hi; [|by intros ?%elem_of_nil].
    destruct (Ascii.eqb_spec c' newline); [by intros ?%elem_of_nil|].
    intros ->%list_elem_of_singleton. by econstructor.
  - destruct (Nat.eqb_spec i 0) as [->|]; [|by intros ?%elem_of_nil].
    intros ->%list_elem_of_singleton. constructor.
  - destruct (Nat.eqb_spec i (length s)) as [->|]; [|by intros ?%elem_of_nil].
    intros ->%list_elem_of_singleton. constructor.
  - intros Hj. constructor. by apply IH.
  - intros Hj%star_ends_reaches. by apply reaches_Matches.
  - intros (k & Hk%list_elem_of_In & Hj%list_elem_of_In)%list_elem_of_In%in_flat_map.
    eapply MatchesPlus; [by apply IH|]. apply reaches_Matches; [done|].
    by eapply star_ends_reaches.
  - intros [-> | Hj]%elem_of_cons; [constructor|]. apply MatchesQuestOne. by apply IH.
  - intros (k & Hk%list_elem_of_In & Hj%list_elem_of_In)%list_elem_of_In%in_flat_map.
    eapply MatchesConcat; [by apply IH1 | by apply IH2].
  - intros [Hj | Hj]%elem_of_app.
    + apply MatchesAlternateLeft. by apply IH1.
    + apply MatchesAlternateRight. by apply IH2.
Qed.

Lemma ends_complete re i j : Matches s re i j → i ≤ length s → j ∈ ends re s i.
Proof.
  induction 1 as [i|c i Hc|c i Hc Hnl| | |sub i j _ IH|sub i|sub i j k _ IH1 _ IH2
                  |sub i j k _ IH1 _ IH2|sub i|sub i j _ IH|sub1 sub2 i j k _ IH1 _ IH2
                  |sub1 sub2 i j _ IH|sub1 sub2 i j _ IH];
    intros Hi; cbn [ends].
  - by apply list_elem_of_singleton.
  - rewrite Hc, Ascii.eqb_refl. by apply list_elem_of_singleton.
  - rewrite Hc. destruct (Ascii.eqb_spec c newline); [done|]. by apply list_elem_of_singleton.
  - by apply list_elem_of_singleton.
  - rewrite Nat.eqb_refl. by apply list_elem_of_singleton.
  - by apply IH.
  - destruct (length s); apply elem_of_cons; by left.
  - specialize (IH1 Hi). destruct (ends_bounds _ _ _ IH1) as [_ Hj]. specialize (Hj Hi).
    apply (reaches_star_ends _ (length s)); [apply ends_bounds| |done|lia].
    apply (reaches_step _ _ j); [done|]. apply (star_ends_reaches _ (length s)).
    by apply IH2.
  - specialize (IH1 Hi). destruct (ends_bounds _ _ _ IH1) as [_ Hj].
    apply list_elem_of_In, in_flat_map. exists j. split; apply list_elem_of_In; auto.
  - apply elem_of_cons. by left.
  - apply elem_of_cons. right. by apply IH.
  - specialize (IH1 Hi). destruct (ends_bounds _ _ _ IH1) as [_ Hj].
    apply list_elem_of_In, in_flat_map. exists j. split; apply list_elem_of_In; auto.
  - apply elem_of_app. left. by apply IH.
  - apply elem_of_app. right. by apply IH.
Qed.

(** A match stays inside the text. *)
Lemma Matches_bounds re i j :
  Matches s re i j → i ≤ length s → i ≤ j ≤ length s.
Proof.
  intros Hm Hi. apply ends_complete, ends_bounds in Hm; [lia | done].
Qed.

End Matcher.

Lemma nonempty_elem (l : list nat) : regexp.nonempty l = true ↔ ∃ j, j ∈ l.
Proof.
  destruct l as [|j l]; simpl.
  - split; [done|]. by intros [j ?%elem_of_nil].
  - split; [|done]. intros _. exists j. by left.
Qed.

(** [MatchString] without anchors is a search for a substring: it succeeds
    exactly when the expression matches the text from some position to some
    later position. *)
Lemma MatchString_substring (re : regexp.Regexp) (str : string) :
  let text := list_ascii_of_string str in
  regexp.MatchString re str = true
  ↔ ∃ i j, (i ≤ j ≤ length text)%nat ∧ regexp.Matches text re i j.
Proof.
  intros text. unfold regexp.MatchString. fold text. rewrite existsb_exists. split.
  - intros (i & Hi%in_seq & (j & Hj)%nonempty_elem). exists i, j.
    destruct (ends_bounds _ _ _ _ Hj). split; [lia|]. by apply ends_sound.
  - intros (i & j & Hij & Hm). exists i. split; [apply in_seq; lia|].
    apply nonempty_elem. exists j. apply ends_complete; [done | lia].
Qed.

(** [FullMatch] succeeds exactly when the expression matches the text from its
    first position to its last. *)
Lemma FullMatch_whole (re : regexp.Regexp) (str : string) :
  let text := list_ascii_of_string str in
  regexp.FullMatch re str = true ↔ regexp.Matches text re 0 (length text).
Proof.
  intros text. unfold regexp.FullMatch. fold text. rewrite existsb_exists. split.
  - intros (j & Hj%list_elem_of_In & <-%Nat.eqb_eq). by apply ends_sound.
  - intros Hm. exists (length text). split; [|apply Nat.eqb_refl].
    apply list_elem_of_In, ends_complete; [done | lia].
Qed.

(** With an anchor on each side of the whole expression, the search is a match
    of the whole text. *)
Lemma anchored_full_match (re : regexp.Regexp) (str : string) :
  regexp.MatchString (regexp.anchored re) str = regexp.FullMatch re str.
Proof.
  apply eq_true_iff_eq. rewrite MatchString_substring, FullMatch_whole. split.
  - intros (i & j & _ & Hm). inversion Hm as [| | | | | | | | | | |? ? ? k ? Hl Hr| |]; subst.
    inversion Hr; subst. inversion Hl as [| | | | | | | | | | |? ? ? k' ? Hb Hre| |]; subst.
    by inversion Hb; subst.
  - intros Hm. exists 0, (length (list_ascii_of_string str)). split; [lia|].
    repeat econstructor. exact Hm.
Qed.

(** *** Strict mode on expressions without alternation *)

Section Parser.
Import regexp.
Local Open Scope nat_scope.
Implicit Types (t : list ascii) (stack top : list frame) (cur outer bottom : frame).
Implicit Types (re : Regexp) (lastRepeat : bool).

Lemma repeat_inl op lastRepeat cur cur' :
  repeat op lastRepeat cur = inl cur' →
  lastRepeat = false
  ∧ ∃ sub rest, items cur = sub :: rest
                ∧ cur' = {| alts := alts cur; items := op sub :: rest |}.
Proof.
  unfold repeat. destruct lastRepeat; [done|]. destruct (items cur) as [|sub rest]; [done|].
  intros [= <-]. eauto.
Qed.

Lemma barred_cur stack cur cur' :
  barred stack cur → (alts cur ≠ [] → alts cur' ≠ []) → barred stack cur'.
Proof. destruct 1; intros Hcur; constructor; auto. Qed.

Lemma barred_open stack cur : barred stack cur → barred (cur :: stack) empty_frame.
Proof.
  destruct 1 as [cur Hcur|top bottom cur Hb].
  - by apply (barred_nested []).
  - by apply (barred_nested (cur :: top)).
Qed.

Lemma barred_close outer stack cur re :
  barred (outer :: stack) cur → barred stack (push re outer).
Proof.
  inversion 1 as [|top bottom ? Hb Heq]; subst. destruct top as [|o top]; simplify_eq/=.
  - by constructor.
  - by constructor.
Qed.

Lemma alternate_barred cur : alts cur ≠ [] → is_alternate (alternate cur) = true.
Proof.
  unfold alternate. destruct (alts cur) as [|a l _] using rev_ind; [done|]. intros _.
  cbn [rev]. rewrite rev_app_distr. cbn [rev app]. by rewrite fold_left_app.
Qed.

Lemma barred_push stack cur re : barred stack cur → barred stack (push re cur).
Proof. intros Hb. by apply (barred_cur _ _ _ Hb). Qed.

Lemma barred_bar stack cur : barred stack cur → barred stack (parseVerticalBar cur).
Proof. intros Hb. by apply (barred_cur _ _ _ Hb). Qed.

(** Once a [|] was read in the outermost frame, the expression parsed is an
    alternation. *)
Lemma parse_barred n t stack cur lastRepeat re :
  length t < n →
  parse t stack cur lastRepeat = inl re →
  barred stack cur →
  is_alternate re = true.
Proof.
  revert t stack cur lastRepeat.
  induction n as [|n IH]; intros t stack cur lastRepeat Hn Hp Hb; [lia|].
  destruct t as [|c t']; cbn [parse] in Hp.
  { destruct stack; [|done]. injection Hp as <-. inversion Hb as [? Ha|top ? ? ? Htop]; subst.
    - by apply alternate_barred.
    - by destruct top. }
  cbn [length] in Hn.
  assert (∀ stack cur lastRepeat, parse t' stack cur lastRepeat = inl re →
            barred stack cur → is_alternate re = true) as IH'
    by (intros; eapply (IH t'); [lia|done..]).
  destruct (Ascii.eqb c "(").
  { destruct (starts_with "?" t'); [done|]. eauto using barred_open. }
  destruct (Ascii.eqb c "|"); [by eauto using barred_bar|].
  destruct (Ascii.eqb c ")").
  { destruct stack as [|outer stack]; [done|]. eauto using barred_close. }
  destruct (Ascii.eqb c "^"); [by eauto using barred_push|].
  destruct (Ascii.eqb c "$"); [by eauto using barred_push|].
  destruct (Ascii.eqb c "."); [by eauto using barred_push|].
  destruct (Ascii.eqb c "["); [done|].
  destruct (Ascii.eqb c "{"); [done|].
  destruct (Ascii.eqb c "\").
  { destruct t' as [|e t'']; [done|]. destruct (is_ascii e && negb (is_alnum e)); [|done].
    eapply (IH t''); [cbn [length] in Hn; lia | done | by apply barred_push]. }
  destruct (repeat_op c) as [op|].
  - destruct (repeat op lastRepeat cur) as [cur'|] eqn:Hrep; [|done].
    apply repeat_inl in Hrep as (_ & sub & rest & _ & ->).
    assert (barred stack {| alts := alts cur; items := op sub :: rest |}) as Hb'
      by by apply (barred_cur _ _ _ Hb).
    destruct t' as [|c' t'']; [by eauto|].
    destruct (Ascii.eqb c' "?"); [|by eauto].
    eapply (IH t''); [cbn [length] in Hn; lia | done..].
  - destruct (is_ascii c); [|done]. eauto using barred_push.
Qed.

Lemma seeded_push stack cur stack' cur' re :
  seeded stack cur stack' cur' → seeded stack (push re cur) stack' (push re cur').
Proof.
  destruct 1 as [cur Hcur|top bottom cur Hb].
  - by apply (seeded_top (push re cur)).
  - by constructor.
Qed.

Lemma seeded_open stack cur stack' cur' :
  seeded stack cur stack' cur' → seeded (cur :: stack) empty_frame (cur' :: stack') empty_frame.
Proof.
  destruct 1 as [cur Hcur|top bottom cur Hb].
  - by apply (seeded_nested []).
  - by apply (seeded_nested (cur :: top)).
Qed.

Lemma seeded_close outer stack cur stack0 cur' :
  seeded (outer :: stack) cur stack0 cur' →
  cur' = cur
  ∧ ∃ outer' stack', stack0 = outer' :: stack'
                     ∧ ∀ re, seeded stack (push re outer) stack' (push re outer').
Proof.
  inversion 1 as [|top bottom ? Hb Heq]; subst. split; [done|].
  destruct top as [|o top]; simplify_eq/=.
  - exists (under outer), []. split; [done|]. intros re. by apply (seeded_top (push re outer)).
  - exists outer, (top ++ [under bottom])%list. split; [done|]. intros re. by constructor.
Qed.

Lemma seeded_bar stack cur stack' cur' :
  seeded stack cur stack' cur' →
  barred stack (parseVerticalBar cur)
  ∨ seeded stack (parseVerticalBar cur) stack' (parseVerticalBar cur').
Proof.
  destruct 1 as [cur Hcur|top bottom cur Hb].
  - left. by constructor.
  - right. by constructor.
Qed.

Lemma seeded_repeat stack cur stack' cur' op lastRepeat cur1 :
  seeded stack cur stack' cur' →
  repeat op lastRepeat cur = inl cur1 →
  ∃ cur1', repeat op lastRepeat cur' = inl cur1' ∧ seeded stack cur1 stack' cur1'.
Proof.
  intros Hs (-> & sub & rest & Hitems & ->)%repeat_inl.
  destruct Hs as [cur Hcur|top bottom cur Hb]; unfold repeat; cbn [items alts under].
  - rewrite Hitems. eexists. split; [done|].
    by apply (seeded_top {| alts := alts cur; items := op sub :: rest |}).
  - rewrite Hitems. eexists. split; [done|]. by constructor.
Qed.

Lemma starts_with_dollar t : starts_with "?" (t ++ ["$"%char]) = starts_with "?" t.
Proof. by destruct t. Qed.

(** Reading an expression that is not an alternation after a [^], up to a
    [$] that follows it, gives the operands of the expression between the two
    anchors. *)
Lemma parse_seeded n t stack cur stack' cur' lastRepeat re :
  length t < n →
  parse t stack cur lastRepeat = inl re →
  is_alternate re = false →
  seeded stack cur stack' cur' →
  ∃ operands, re = concat operands
              ∧ parse (t ++ ["$"%char]) stack' cur' lastRepeat
                = inl (concat (OpEndText :: operands ++ [OpBeginText])).
Proof.
  intros Hn Hp Hre. revert t stack cur stack' cur' lastRepeat Hn Hp.
  induction n as [|n IH]; intros t stack cur stack' cur' lastRepeat Hn Hp Hs; [lia|].
  destruct t as [|c t']; cbn [parse app] in Hp |- *.
  { destruct stack; [|done]. injection Hp as <-.
    inversion Hs as [? Ha|top ? ? ? Htop]; subst; [|by destruct top].
    exists (items cur). unfold alternate. cbn [alts push under items]. by rewrite Ha. }
  cbn [length] in Hn.
  assert (∀ stack cur stack' cur' lastRepeat,
            parse t' stack cur lastRepeat = inl re →
            seeded stack cur stack' cur' →
            ∃ operands, re = concat operands
                        ∧ parse (t' ++ ["$"%char]) stack' cur' lastRepeat
                          = inl (concat (OpEndText :: operands ++ [OpBeginText]))) as IH'
    by (intros; eapply (IH t'); [lia|done..]).
  destruct (Ascii.eqb c "(").
  { rewrite starts_with_dollar. destruct (starts_with "?" t'); [done|].
    eauto using seeded_open. }
  destruct (Ascii.eqb c "|").
  { destruct (seeded_bar _ _ _ _ Hs) as [Hb|Hs']; [|by eauto].
    apply (parse_barred (S (length t'))) in Hp; [congruence | lia | done]. }
  destruct (Ascii.eqb c ")").
  { destruct stack as [|outer stack]; [done|].
    destruct (seeded_close _ _ _ _ _ Hs) as (-> & outer' & stack1 & -> & Hs'). eauto. }
  destruct (Ascii.eqb c "^"); [by eauto using seeded_push|].
  destruct (Ascii.eqb c "$"); [by eauto using seeded_push|].
  destruct (Ascii.eqb c "."); [by eauto using seeded_push|].
  destruct (Ascii.eqb c "["); [done|].
  destruct (Ascii.eqb c "{"); [done|].
  destruct (Ascii.eqb c "\").
  { destruct t' as [|e t'']; [done|]. cbn [app].
    destruct (is_ascii e && negb (is_alnum e)); [|done].
    eapply (IH t''); [cbn [length] in Hn; lia | done | by apply seeded_push]. }
  destruct (repeat_op c) as [op|].
  - destruct (repeat op lastRepeat cur) as [cur1|] eqn:Hrep; [|done].
    destruct (seeded_repeat _ _ _ _ _ _ _ Hs Hrep) as (cur1' & -> & Hs').
    destruct t' as [|c' t'']; [exact (IH' _ _ _ _ _ Hp Hs')|]. cbn [app].
    destruct (Ascii.eqb c' "?"); [|by eauto].
    eapply (IH t''); [cbn [length] in Hn; lia | done..].
  - destruct (is_ascii c); [|done]. eauto using seeded_push.
Qed.

Lemma fold_concat_matches s (res : list Regexp) re i k :
  Matches s (fold_left OpConcat res re) i k
  ↔ ∃ j, Matches s re i j ∧ matches_all s res j k.
Proof.
  revert re. induction res as [|re' res IH]; intros re; cbn [fold_left matches_all].
  - split; [by eauto|]. by intros (j & Hm & <-).
  - rewrite IH. split.
    + intros (j & Hm & Hres). inversion Hm; subst. eauto.
    + intros (j & Hm & j' & Hm' & Hres). exists j'. split; [by econstructor | done].
Qed.

Lemma concat_matches s (operands : list Regexp) i k :
  Matches s (concat operands) i k ↔ matches_all s (rev operands) i k.
Proof.
  unfold concat. destruct (rev operands) as [|re res]; cbn [matches_all].
  - split; [by inversion 1 | intros <-; constructor].
  - apply fold_concat_matches.
Qed.

(** Between the two anchors, the operands match the whole text. *)
Lemma concat_anchored s (operands : list Regexp) i k :
  Matches s (concat (OpEndText :: operands ++ [OpBeginText])) i k
  ↔ i = 0 ∧ k = length s ∧ Matches s (concat operands) 0 (length s).
Proof.
  rewrite (concat_matches s operands). unfold concat.
  cbn [rev]. rewrite rev_app_distr. cbn [rev app]. rewrite fold_left_app. cbn [fold_left].
  split.
  - inversion 1 as [| | | | | | | | | | |? ? ? j ? Hl Hr| |]; subst. inversion Hr; subst.
    apply fold_concat_matches in Hl as (j & Hb & Hall). by inversion Hb; subst.
  - intros (-> & -> & Hall). econstructor; [|constructor].
    apply fold_concat_matches. exists 0. split; [constructor | done].
Qed.

Lemma list_ascii_of_string_append (a b : string) :
  list_ascii_of_string (a +:+ b) = (list_ascii_of_string a ++ list_ascii_of_string b)%list.
Proof. induction a as [|c a IH]; [done|]. simpl. by f_equal. Qed.

End Parser.

(** In strict mode, an expression of the fragment that compiles to something
    other than an alternation is matched against the whole identifier. *)
Lemma strict_full_match (expression : string) (re : regexp.Regexp) :
  regexp.Compile expression = inl re →
  regexp.is_alternate re = false →
  ∃ re', regexp.Compile (pattern true expression) = inl re'
         ∧ ∀ identifier, regexp.MatchString re' identifier = regexp.FullMatch re identifier.
Proof.
  unfold regexp.Compile, pattern. intros Hre Halt.
  rewrite !list_ascii_of_string_append.
  destruct (parse_seeded (S (length (list_ascii_of_string expression)))
              (list_ascii_of_string expression) [] regexp.empty_frame
              [] (regexp.under regexp.empty_frame) false re) as (operands & -> & Hparse);
    [lia | done | done | by constructor |].
  eexists. split; [exact Hparse|]. intros identifier.
  apply eq_true_iff_eq. rewrite MatchString_substring, FullMatch_whole. split.
  - by intros (i & j & _ & (_ & _ & Hm)%concat_anchored).
  - intros Hm. exists 0, (length (list_ascii_of_string identifier)). split; [lia|].
    by apply concat_anchored.
Qed.


(** ** The claims at concrete inputs *)

Import sample.

(** A pod annotated with [team-a] asks for [team-b] in a namespace that
    permits the roles of the team: the annotation-match policy denies, and the
    composite returns its denial without invoking the member after it. *)
Lemma composite_conjunction_witness :
  let permitted :=
    NewNamespacePermittedRoleNamePolicy true
      (finder (cluster "arn:aws:iam::111:role/team-.*")) resolver in
  let annotated := NewRequestingAnnotatedRolePolicy tt resolver in
  let pod := pod_of "team" "team-a" in
  (∃ d, IsAllowedAssumeRole (Policies [permitted; annotated]) tt "team-b" pod
        = Returns (Some d) None
        ∧ (IsAllowed d = false ↔ Exists (denies tt "team-b" pod) [permitted; annotated]))
  ∧ IsAllowedAssumeRole (Policies ([permitted] ++ annotated :: [panicking])) tt "team-b" pod
    = Returns (Some (forbidden "team-b" "team-a")) None.
Proof.
  intros permitted annotated pod.
  destruct (composite_conjunction (H:=externals) tt "team-b" pod) as (Hiff & Hfirst & _).
  split.
  - apply Hiff. repeat constructor.
    + by exists allowed.
    + by exists (forbidden "team-b" "team-a").
  - apply Hfirst; [|done|done]. repeat constructor. by exists allowed.
Defined.

(** C3 fails where a member before the erring one denies: the annotation-match
    policy denies, the namespace of the pod is not found, and the composite
    returns the denial, not the error. *)
Lemma composite_first_error_counterexample :
  let annotated := NewRequestingAnnotatedRolePolicy tt resolver in
  let permitted := NewNamespacePermittedRoleNamePolicy true (finder (cluster "team-.*")) resolver in
  let pod := pod_of "nowhere" "team-a" in
  IsAllowedAssumeRole annotated tt "team-b" pod
  = Returns (Some (forbidden "team-b" "team-a")) None
  ∧ IsAllowedAssumeRole permitted tt "team-b" pod
    = Returns None (Some (ErrorString "namespace not found"))
  ∧ IsAllowedAssumeRole (Policies [annotated; permitted]) tt "team-b" pod
    = Returns (Some (forbidden "team-b" "team-a")) None.
Proof. by vm_compute. Qed.

(** The pod asks for the role it is annotated with, its namespace is not
    found, and what comes after the erring member is not invoked. *)
Lemma composite_first_error_witness :
  let annotated := NewRequestingAnnotatedRolePolicy tt resolver in
  let permitted := NewNamespacePermittedRoleNamePolicy true (finder (cluster "team-.*")) resolver in
  IsAllowedAssumeRole (Policies ([annotated] ++ permitted :: [panicking]))
    tt "team-a" (pod_of "nowhere" "team-a")
  = Returns None (Some (ErrorString "namespace not found")).
Proof.
  intros annotated permitted.
  apply (composite_first_error (H:=externals) _ _ _ [annotated] permitted [panicking] None).
  - repeat constructor. by exists allowed.
  - reflexivity.
Defined.

(** C4 fails where the annotation is not the name of the role: a pod annotated
    with an ARN asks for another role, and the explanation names the role of
    the annotation, not the annotation. *)
Lemma annotation_match_counterexample :
  let pod := pod_of "team" "arn:aws:iam::111:role/readonly" in
  resolver (PodRole pod)
  = inl {| Name := "readonly"; ARN := "arn:aws:iam::111:role/readonly" |}
  ∧ resolver "admin" = inl {| Name := "admin"; ARN := "arn:aws:iam::111:role/admin" |}
  ∧ IsAllowedAssumeRole (NewRequestingAnnotatedRolePolicy tt resolver) tt "admin" pod
    = Returns (Some (forbidden "admin" "readonly")) None
  ∧ Explanation (forbidden "admin" "readonly")
    = "requested 'admin' but annotated with 'readonly', forbidden"
  ∧ Contains (Explanation (forbidden "admin" "readonly")) (PodRole pod) = false.
Proof. by vm_compute. Qed.

Lemma annotation_match_witness :
  let pod := pod_of "team" "arn:aws:iam::111:role/readonly" in
  IsAllowedAssumeRole (NewRequestingAnnotatedRolePolicy tt resolver) tt "readonly" pod
  = Returns (Some allowed) None
  ∧ ∃ d, IsAllowedAssumeRole (NewRequestingAnnotatedRolePolicy tt resolver) tt "admin" pod
         = Returns (Some d) None
         ∧ IsAllowed d = false
         ∧ Explanation d = "requested 'admin' but annotated with 'readonly', forbidden"
         ∧ Contains (Explanation d) "admin" = true
         ∧ Contains (Explanation d) "readonly" = true.
Proof.
  intros pod. split.
  - apply (annotation_match (H:=externals) tt resolver tt "readonly" pod
             {| Name := "readonly"; ARN := "arn:aws:iam::111:role/readonly" |}
             {| Name := "readonly"; ARN := "arn:aws:iam::111:role/readonly" |});
      reflexivity.
  - apply (annotation_match (H:=externals) tt resolver tt "admin" pod
             {| Name := "readonly"; ARN := "arn:aws:iam::111:role/readonly" |}
             {| Name := "admin"; ARN := "arn:aws:iam::111:role/admin" |});
      reflexivity.
Defined.

(** C5 fails where the requested role does not resolve: in a namespace without
    annotations the policy returns the error of the resolver, not a denial. *)
Lemma namespace_without_expression_counterexample :
  let pod := pod_of "bare" "team-a" in
  finder (cluster "team-.*") tt (pod_namespace pod) = inl bare
  ∧ ns_annotations bare !! (AnnotationPermittedKey (Externals:=externals)) = None
  ∧ IsAllowedAssumeRole
      (NewNamespacePermittedRoleNamePolicy true (finder (cluster "team-.*")) resolver)
      tt "" pod
    = Returns None (Some (ErrorString "role can't be empty")).
Proof. by vm_compute. Qed.

Lemma namespace_without_expression_witness :
  let policy :=
    NewNamespacePermittedRoleNamePolicy true (finder (cluster "team-.*")) resolver in
  (∃ d, IsAllowedAssumeRole policy tt "team-a" (pod_of "bare" "team-a") = Returns (Some d) None
        ∧ IsAllowed d = false
        ∧ Explanation d = "namespace policy expression '(empty)' forbids role 'team-a'"
        ∧ Contains (Explanation d) "(empty)" = true
        ∧ Contains (Explanation d) "team-a" = true)
  ∧ IsAllowedAssumeRole policy tt "" (pod_of "bare" "team-a")
    = Returns None (Some (ErrorString "role can't be empty")).
Proof.
  intros policy.
  destruct (namespace_without_expression (H:=externals) (finder (cluster "team-.*")) resolver
              true tt "team-a" (pod_of "bare" "team-a") bare) as (_ & Hdenied & _);
    [reflexivity | by left |].
  destruct (namespace_without_expression (H:=externals) (finder (cluster "team-.*")) resolver
              true tt "" (pod_of "bare" "team-a") bare) as (_ & _ & Herror);
    [reflexivity | by left |].
  split.
  - apply (Hdenied {| Name := "team-a"; ARN := "arn:aws:iam::111:role/team-a" |}).
    reflexivity.
  - apply Herror. reflexivity.
Defined.

(** Scenario C of the specification: the roles of a team, in strict mode. *)
Lemma namespace_expression_match_witness :
  let policy :=
    NewNamespacePermittedRoleNamePolicy true
      (finder (cluster "^arn:aws:iam::111:role/team-.*$")) resolver in
  let pod := pod_of "team" "team-a" in
  IsAllowedAssumeRole policy tt "team-a" pod = Returns (Some allowed) None
  ∧ ∃ d, IsAllowedAssumeRole policy tt "arn:aws:iam::222:role/team-a" pod = Returns (Some d) None
         ∧ IsAllowed d = false
         ∧ Explanation d
           = "namespace policy expression '^arn:aws:iam::111:role/team-.*$' forbids role 'arn:aws:iam::222:role/team-a'"
         ∧ Contains (Explanation d) "^arn:aws:iam::111:role/team-.*$" = true
         ∧ Contains (Explanation d) "arn:aws:iam::222:role/team-a" = true.
Proof.
  intros policy pod. split.
  - apply (namespace_expression_match (H:=externals) (finder (cluster _)) resolver true
             tt "team-a" pod {| Name := "team-a"; ARN := "arn:aws:iam::111:role/team-a" |}
             (permitting "^arn:aws:iam::111:role/team-.*$")
             (compiled "^^arn:aws:iam::111:role/team-.*$$"));
      by vm_compute.
  - apply (namespace_expression_match (H:=externals) (finder (cluster _)) resolver true
             tt "arn:aws:iam::222:role/team-a" pod
             {| Name := "team-a"; ARN := "arn:aws:iam::222:role/team-a" |}
             (permitting "^arn:aws:iam::111:role/team-.*$")
             (compiled "^^arn:aws:iam::111:role/team-.*$$"));
      by vm_compute.
Defined.

(** C7 fails at two places.  By the design of the composite, a member that
    denies ends the evaluation: the namespace of the pod cannot be found, and
    the composite returns the denial of the annotation-match policy, which
    comes first.  And in strict mode the anchors are added before the
    expression is compiled: an expression that ends in a backslash does not
    compile, but between the anchors it does, and the policy returns a
    denial. *)
Lemma failures_stay_errors_counterexample :
  let annotated := NewRequestingAnnotatedRolePolicy (H:=externals) tt resolver in
  let permitted expression :=
    NewNamespacePermittedRoleNamePolicy true (finder (cluster expression)) resolver in
  (finder (cluster "team-.*") tt "nowhere" = inr (ErrorString "namespace not found")
   ∧ IsAllowedAssumeRole (Policies [annotated; permitted "team-.*"])
       tt "team-b" (pod_of "nowhere" "team-a")
     = Returns (Some (forbidden "team-b" "team-a")) None)
  ∧ (regexp.Compile "team-\" = inr regexp.ErrTrailingBackslash
     ∧ IsAllowedAssumeRole (permitted "team-\") tt "team-a" (pod_of "team" "team-a")
       = Returns (Some (namespacePolicyForbidden "team-\" "arn:aws:iam::111:role/team-a"))
           None).
Proof. by vm_compute. Qed.

(** An empty role annotation, a namespace that is not found and an expression
    with an open group each come back as an error. *)
Lemma failures_stay_errors_witness :
  (∃ e, IsAllowedAssumeRole (NewRequestingAnnotatedRolePolicy tt resolver)
          tt "team-a" (pod_of "team" "") = Returns None (Some e)
        ∧ (resolver (PodRole (pod_of "team" "")) = inr e ∨ resolver "team-a" = inr e))
  ∧ (∃ e, IsAllowedAssumeRole
            (NewNamespacePermittedRoleNamePolicy true (finder (cluster "team-.*")) resolver)
            tt "team-a" (pod_of "nowhere" "team-a") = Returns None (Some e)
          ∧ (resolver "team-a" = inr e
             ∨ finder (cluster "team-.*") tt "nowhere" = inr e
             ∨ ∃ expression, Compile (pattern true expression) = inr e))
  ∧ (∃ e, IsAllowedAssumeRole
            (NewNamespacePermittedRoleNamePolicy true (finder (cluster "team-(.*")) resolver)
            tt "team-a" (pod_of "team" "team-a") = Returns None (Some e)
          ∧ (resolver "team-a" = inr e
             ∨ finder (cluster "team-(.*") tt "team" = inr e
             ∨ ∃ expression, Compile (pattern true expression) = inr e)).
Proof.
  split; [|split].
  - apply (proj1 (failures_stay_errors (H:=externals) tt "team-a" (pod_of "team" ""))).
    left. by exists (ErrorString "role can't be empty").
  - apply (proj1 (proj2 (failures_stay_errors (H:=externals) tt "team-a"
                           (pod_of "nowhere" "team-a")))).
    right; left. by exists (ErrorString "namespace not found").
  - apply (proj1 (proj2 (failures_stay_errors (H:=externals) tt "team-a"
                           (pod_of "team" "team-a")))).
    right; right. exists (permitting "team-(.*"), (RegexpError regexp.ErrMissingParen).
    by vm_compute.
Defined.

Lemma decision_explanation_witness :
  Explanation allowed = ""
  ∧ Explanation (forbidden "admin" "readonly") ≠ ""
  ∧ Contains (Explanation (forbidden "admin" "readonly")) "annotated with" = true
  ∧ Forall (fun value => Contains (Explanation (forbidden "admin" "readonly")) value = true)
      ["admin"; "readonly"].
Proof.
  split.
  - apply (proj1 (decision_explanation allowed)). reflexivity.
  - apply (proj2 (decision_explanation (forbidden "admin" "readonly"))). reflexivity.
Defined.

Lemma decision_or_error_witness :
  exactly_one
    (IsAllowedAssumeRole
       (Policies
          [NewRequestingAnnotatedRolePolicy tt resolver;
           NewNamespacePermittedRoleNamePolicy true (finder (cluster "team-.*")) resolver])
       tt "team-a" (pod_of "team" "team-a"))
  ∧ exactly_one (Returns (error:=failure) (Some allowed) None).
Proof.
  destruct (decision_or_error (H:=externals) tt "team-a" (pod_of "team" "team-a"))
    as (_ & _ & Hconvention & Hreturns).
  split.
  - apply Hconvention. repeat constructor.
  - apply (Hreturns []). reflexivity.
Defined.

(** ** Strict mode *)

(** The expression [foo] of the specification: in strict mode it permits the
    identifier [foo] and neither [foobar] nor [xfoo]; otherwise it permits all
    three. *)
Lemma strict_foo :
  let policy strict :=
    NewNamespacePermittedRoleNamePolicy strict (finder (cluster "foo")) verbatim in
  let pod := pod_of "team" "foo" in
  IsAllowedAssumeRole (policy true) tt "foo" pod = Returns (Some allowed) None
  ∧ IsAllowedAssumeRole (policy true) tt "foobar" pod
    = Returns (Some (namespacePolicyForbidden "foo" "foobar")) None
  ∧ IsAllowedAssumeRole (policy true) tt "xfoo" pod
    = Returns (Some (namespacePolicyForbidden "foo" "xfoo")) None
  ∧ IsAllowedAssumeRole (policy false) tt "foo" pod = Returns (Some allowed) None
  ∧ IsAllowedAssumeRole (policy false) tt "foobar" pod = Returns (Some allowed) None
  ∧ IsAllowedAssumeRole (policy false) tt "xfoo" pod = Returns (Some allowed) None.
Proof. by vm_compute. Qed.

(** In strict mode the added anchors bind tighter than an alternation of the
    expression: [^foo|bar$] is [^foo] or [bar$]. *)
Lemma strict_alternation_parse :
  regexp.Compile (pattern true "foo|bar")
  = inl (regexp.OpAlternate
           (regexp.concat (rev (regexp.OpBeginText :: map regexp.OpLiteral (list_ascii_of_string "foo"))))
           (regexp.concat (rev (map regexp.OpLiteral (list_ascii_of_string "bar") ++ [regexp.OpEndText])))).
Proof. reflexivity. Qed.

(** X8. In strict mode, when the expression of the namespace compiles to
    something other than an alternation and the canonical identifier of the
    requested role is ASCII text, the policy allows exactly when the expression
    matches the identifier from end to end. *)
Lemma strict_policy_full_match (namespaces : NamespaceFinder) (resolver : ARNResolver)
  (role : string) (pod : Pod) (requested : RoleIdentity) (ns : Namespace)
  (re : regexp.Regexp) :
  let expression := index (ns_annotations ns) AnnotationPermittedKey in
  resolver role = inl requested →
  regexp.is_ascii_text (ARN requested) = true →
  namespaces tt (pod_namespace pod) = inl ns →
  expression ≠ "" →
  regexp.Compile expression = inl re →
  regexp.is_alternate re = false →
  IsAllowedAssumeRole (NewNamespacePermittedRoleNamePolicy true namespaces resolver) tt role pod
  = Returns (Some (if regexp.FullMatch re (ARN requested) then allowed
                   else namespacePolicyForbidden expression (ARN requested))) None.
Proof.
  intros expression Hr _ Hn Hne Hre Halt. unfold NewNamespacePermittedRoleNamePolicy.
  rewrite (namespace_found _ _ _ _ _ _ _ _ Hr Hn). cbv zeta. fold expression.
  apply String.eqb_neq in Hne. rewrite Hne.
  destruct (strict_full_match _ _ Hre Halt) as (re' & Hre' & Hmatch).
  cbn [Compile externals]. unfold compile. rewrite Hre'. cbn [MatchString]. rewrite Hmatch.
  by destruct (regexp.FullMatch re (ARN requested)).
Qed.

(** X9. Not in strict mode, when the canonical identifier of the requested
    role is ASCII text, the policy allows exactly when the identifier contains
    a match of the expression. *)
Lemma lax_policy_substring (namespaces : NamespaceFinder) (resolver : ARNResolver)
  (role : string) (pod : Pod) (requested : RoleIdentity) (ns : Namespace)
  (re : regexp.Regexp) :
  let expression := index (ns_annotations ns) AnnotationPermittedKey in
  let identifier := list_ascii_of_string (ARN requested) in
  resolver role = inl requested →
  regexp.is_ascii_text (ARN requested) = true →
  namespaces tt (pod_namespace pod) = inl ns →
  expression ≠ "" →
  regexp.Compile expression = inl re →
  IsAllowedAssumeRole (NewNamespacePermittedRoleNamePolicy false namespaces resolver) tt role pod
  = Returns (Some allowed) None
  ↔ ∃ i j, (i ≤ j ≤ length identifier)%nat ∧ regexp.Matches identifier re i j.
Proof.
  intros expression identifier Hr _ Hn Hne Hre. unfold NewNamespacePermittedRoleNamePolicy.
  rewrite (namespace_found _ _ _ _ _ _ _ _ Hr Hn). cbv zeta. fold expression.
  apply String.eqb_neq in Hne. rewrite Hne.
  cbn [Compile externals pattern]. unfold compile. rewrite Hre. cbn [MatchString].
  etransitivity; [|apply (MatchString_substring re (ARN requested))].
  change (@MatchString externals re (ARN requested))
    with (regexp.MatchString re (ARN requested)).
  destruct (regexp.MatchString re (ARN requested)); split; congruence.
Qed.

(** C1, at an input where the code departs from it.  A namespace permits two
    roles by an alternation; in strict mode the policy allows a role whose
    canonical identifier only begins with the first of them, although the
    expression does not match that identifier from end to end. *)
Theorem strict_alternation_not_full_match :
  let expression := "arn:aws:iam::111:role/reader|arn:aws:iam::111:role/writer" in
  let policy := NewNamespacePermittedRoleNamePolicy true (finder (cluster expression)) resolver in
  resolver "reader-with-extra-privileges"
  = inl {| Name := "reader-with-extra-privileges";
           ARN := "arn:aws:iam::111:role/reader-with-extra-privileges" |}
  ∧ regexp.Compile expression = inl (compiled expression)
  ∧ regexp.FullMatch (compiled expression) "arn:aws:iam::111:role/reader-with-extra-privileges"
    = false
  ∧ IsAllowedAssumeRole policy tt "reader-with-extra-privileges" (pod_of "team" "reader")
    = Returns (Some allowed) None.
Proof. by vm_compute. Qed.

(** * Further properties of the engine *)

(** ** The composite policy as a conjunction *)

Section CompositeLaws.
Context `{Externals}.
Local Open Scope list_scope.
Implicit Types (p q : AssumeRolePolicy) (ps pre post inner : list AssumeRolePolicy).
Implicit Types (ctx : context_Context) (role : string) (pod : Pod).

(** A decision that allows is the value [allowed]. *)
Lemma IsAllowed_allowed (d : Decision) : IsAllowed d = true → d = allowed.
Proof. by destruct d. Qed.

(** The composite is the sequence of its two halves: the second half is
    consulted exactly when the first half allows. *)
Lemma composite_app ps post ctx role pod :
  IsAllowedAssumeRole (CompositeAssumeRolePolicy (ps ++ post)) ctx role pod =
  match IsAllowedAssumeRole (CompositeAssumeRolePolicy ps) ctx role pod with
  | Returns (Some d) None =>
      if IsAllowed d then IsAllowedAssumeRole (CompositeAssumeRolePolicy post) ctx role pod
      else Returns (Some d) None
  | o => o
  end.
Proof.
  induction ps as [|p ps IH]; [done|].
  rewrite <- app_comm_cons, !composite_cons.
  destruct (IsAllowedAssumeRole p ctx role pod) as [[d|] [e|]|]; try done.
  destruct (IsAllowed d) eqn:Hd; simpl; [exact IH|]. by rewrite Hd.
Qed.

(** X1. The composite returns the allowing decision exactly when every member,
    invoked in turn, returns an allowing decision and no error: a member that
    denies, errs, panics or returns nothing keeps the composite from
    allowing. *)
Theorem composite_allows_iff ps ctx role pod :
  IsAllowedAssumeRole (Policies ps) ctx role pod = Returns (Some allowed) None
  ↔ Forall (allows ctx role pod) ps.
Proof.
  split.
  - induction ps as [|p ps IH]; [constructor|].
    unfold Policies in *. rewrite composite_cons.
    destruct (IsAllowedAssumeRole p ctx role pod) as [[d|] [e|]|] eqn:Hp; try done.
    destruct (IsAllowed d) eqn:Hd; simpl; [|by intros [= ->]].
    intros Hps. constructor; [by exists d | by apply IH].
  - intros Hps. unfold Policies.
    rewrite <- (app_nil_r ps). by rewrite (composite_skip _ _ _ _ _ Hps).
Qed.

(** X2. Whether the composite allows does not depend on the order of its
    members. *)
Theorem composite_allows_permutation ps ps' ctx role pod :
  Permutation ps ps' →
  IsAllowedAssumeRole (Policies ps) ctx role pod = Returns (Some allowed) None →
  IsAllowedAssumeRole (Policies ps') ctx role pod = Returns (Some allowed) None.
Proof.
  intros Hperm Hps. unfold Policies in *.
  rewrite <- (app_nil_r ps'). rewrite composite_skip; [done|].
  rewrite <- Hperm. clear Hperm ps'.
  induction ps as [|p ps IH]; [constructor|].
  rewrite composite_cons in Hps.
  destruct (IsAllowedAssumeRole p ctx role pod) as [[d|] [e|]|] eqn:Hp; try done.
  destruct (IsAllowed d) eqn:Hd; simpl in Hps; [|by injection Hps as ->].
  constructor; [by exists d | by apply IH].
Qed.

(** X3. A composite used as a member of a composite behaves as its members put
    in its place. *)
Theorem composite_flatten pre inner post ctx role pod :
  IsAllowedAssumeRole (Policies (pre ++ Policies inner :: post)) ctx role pod
  = IsAllowedAssumeRole (Policies (pre ++ inner ++ post)) ctx role pod.
Proof.
  unfold Policies. rewrite (composite_app pre), (composite_app pre (inner ++ post)).
  destruct (IsAllowedAssumeRole (CompositeAssumeRolePolicy pre) ctx role pod)
    as [[d|] [e|]|]; try done.
  destruct (IsAllowed d); [|done].
  rewrite composite_cons, (composite_app inner).
  destruct (IsAllowedAssumeRole (CompositeAssumeRolePolicy inner) ctx role pod)
    as [[d'|] [e'|]|] eqn:Hinner; try done.
  - by apply composite_returns_one in Hinner as [Hinner _]; specialize (Hinner ltac:(done)).
  - destruct (IsAllowed d'); [done|]. reflexivity.
  - by apply composite_returns_one in Hinner as [_ Hinner]; specialize (Hinner eq_refl).
Qed.

(** X4. Where each outcome of the composite comes from: it returns an error
    exactly when the first member that does not allow returns that error; it
    returns a denial exactly when the first member that does not allow returns
    that denial; and it panics exactly when the first member that does not
    allow panics or returns neither a decision nor an error. *)
Theorem composite_outcome_origin ps ctx role pod :
  (∀ e, IsAllowedAssumeRole (Policies ps) ctx role pod = Returns None (Some e)
        ↔ ∃ pre p post d, ps = pre ++ p :: post ∧ Forall (allows ctx role pod) pre
                          ∧ IsAllowedAssumeRole p ctx role pod = Returns d (Some e))
  ∧ (∀ d, IsAllowed d = false →
          (IsAllowedAssumeRole (Policies ps) ctx role pod = Returns (Some d) None
           ↔ ∃ pre p post, ps = pre ++ p :: post ∧ Forall (allows ctx role pod) pre
                           ∧ IsAllowedAssumeRole p ctx role pod = Returns (Some d) None))
  ∧ (IsAllowedAssumeRole (Policies ps) ctx role pod = Panics
     ↔ ∃ pre p post, ps = pre ++ p :: post ∧ Forall (allows ctx role pod) pre
                     ∧ (IsAllowedAssumeRole p ctx role pod = Panics
                        ∨ IsAllowedAssumeRole p ctx role pod = Returns None None)).
Proof.
  unfold Policies.
  assert (Hfirst : Forall (allows ctx role pod) ps
                   ∨ ∃ pre p post, ps = pre ++ p :: post ∧ Forall (allows ctx role pod) pre
                                   ∧ ¬ allows ctx role pod p).
  { induction ps as [|p ps [IH | (pre & q & post & -> & Hpre & Hq)]]; [by left| |].
    - destruct (IsAllowedAssumeRole p ctx role pod) as [[d|] [e|]|] eqn:Hp;
        try (right; exists [], p, ps; split; [done|]; split; [constructor|];
             intros (d0 & Hd0 & _); congruence).
      destruct (IsAllowed d) eqn:Hd.
      + left. constructor; [by exists d | done].
      + right. exists [], p, ps. split; [done|]. split; [constructor|].
        intros (d0 & Hd0 & Hd0'). congruence.
    - destruct (IsAllowedAssumeRole p ctx role pod) as [[d|] [e|]|] eqn:Hp;
        try (right; exists [], p, (pre ++ q :: post); split; [done|]; split; [constructor|];
             intros (d0 & Hd0 & _); congruence).
      destruct (IsAllowed d) eqn:Hd.
      + right. exists (p :: pre), q, post. split; [done|]. split; [|done].
        constructor; [by exists d | done].
      + right. exists [], p, (pre ++ q :: post). split; [done|]. split; [constructor|].
        intros (d0 & Hd0 & Hd0'). congruence. }
  assert (Hunique : ∀ pre p post pre' p' post',
            pre ++ p :: post = pre' ++ p' :: post' →
            Forall (allows ctx role pod) pre → ¬ allows ctx role pod p →
            Forall (allows ctx role pod) pre' → ¬ allows ctx role pod p' →
            pre = pre' ∧ p = p' ∧ post = post').
  { induction pre as [|a pre IH]; intros p post [|a' pre'] p' post' Heq Hpre Hp Hpre' Hp';
      cbn [app] in Heq; injection Heq as -> Heq.
    - by subst.
    - by apply Forall_cons in Hpre' as [? _].
    - by apply Forall_cons in Hpre as [? _].
    - apply Forall_cons in Hpre as [_ Hpre]. apply Forall_cons in Hpre' as [_ Hpre'].
      by destruct (IH _ _ _ _ _ Heq Hpre Hp Hpre' Hp') as (-> & -> & ->). }
  assert (Hat : ∀ pre p post, Forall (allows ctx role pod) pre →
            IsAllowedAssumeRole (CompositeAssumeRolePolicy (pre ++ p :: post)) ctx role pod
            = match IsAllowedAssumeRole p ctx role pod with
              | Panics => Panics
              | Returns _ (Some err) => Returns None (Some err)
              | Returns None None => Panics
              | Returns (Some decision) None =>
                  if negb (IsAllowed decision) then Returns (Some decision) None
                  else IsAllowedAssumeRole (CompositeAssumeRolePolicy post) ctx role pod
              end).
  { intros pre p post Hpre. by rewrite (composite_skip _ _ _ _ _ Hpre), composite_cons. }
  destruct Hfirst as [Hall | (pre & p & post & -> & Hpre & Hp)].
  { assert (IsAllowedAssumeRole (CompositeAssumeRolePolicy ps) ctx role pod
            = Returns (Some allowed) None) as ->
      by (rewrite <- (app_nil_r ps); by rewrite (composite_skip _ _ _ _ _ Hall)).
    assert (∀ pre p post, ps = pre ++ p :: post → allows ctx role pod p) as Hmember.
    { intros pre p post ->. by apply Forall_app in Hall as [_ [? _]%Forall_cons]. }
    split; [|split].
    - intros e. split; [done|]. intros (pre & p & post & d & Heq & _ & Hp).
      destruct (Hmember _ _ _ Heq) as (d0 & Hd0 & _). congruence.
    - intros d Hd. split; [by intros [= <-]|]. intros (pre & p & post & Heq & _ & Hp).
      destruct (Hmember _ _ _ Heq) as (d0 & Hd0 & Hd0'). congruence.
    - split; [done|]. intros (pre & p & post & Heq & _ & [Hp | Hp]);
        destruct (Hmember _ _ _ Heq) as (d0 & Hd0 & _); congruence. }
  rewrite (Hat _ _ _ Hpre).
  split; [|split].
  - intros e. split.
    + intros Hres. destruct (IsAllowedAssumeRole p ctx role pod) as [d [e0|]|] eqn:Hpo.
      * exists pre, p, post, d. destruct d; by simplify_eq/=.
      * destruct d as [d|]; [|done]. destruct (IsAllowed d) eqn:Hd; [|done].
        destruct Hp. by exists d.
      * done.
    + intros (pre' & p' & post' & d & Heq & Hpre' & Hp').
      destruct (Hunique _ _ _ _ _ _ Heq Hpre Hp Hpre') as (-> & -> & ->).
      { intros (d0 & Hd0 & _). congruence. }
      rewrite Hp'. by destruct d.
  - intros d Hd. split.
    + intros Hres. exists pre, p, post. split; [done|]. split; [done|].
      destruct (IsAllowedAssumeRole p ctx role pod) as [[d0|] [e0|]|] eqn:Hpo; try done.
      destruct (IsAllowed d0) eqn:Hd0; simpl in Hres; [|congruence].
      destruct Hp. by exists d0.
    + intros (pre' & p' & post' & Heq & Hpre' & Hp').
      destruct (Hunique _ _ _ _ _ _ Heq Hpre Hp Hpre') as (-> & -> & ->).
      { intros (d0 & Hd0 & Hd0'). congruence. }
      by rewrite Hp', Hd.
  - split.
    + intros Hres. exists pre, p, post. split; [done|]. split; [done|].
      destruct (IsAllowedAssumeRole p ctx role pod) as [[d0|] [e0|]|] eqn:Hpo;
        try done; [|by right | by left].
      destruct (IsAllowed d0) eqn:Hd0; simpl in Hres; [|done].
      destruct Hp. by exists d0.
    + intros (pre' & p' & post' & Heq & Hpre' & Hp').
      destruct (Hunique _ _ _ _ _ _ Heq Hpre Hp Hpre') as (-> & -> & ->).
      { intros (d0 & Hd0 & _). destruct Hp'; congruence. }
      by destruct Hp' as [-> | ->].
Qed.

End CompositeLaws.

(** ** When the single policies allow *)

Section SingleLaws.
Context `{Externals}.
Implicit Types (resolver : ARNResolver) (namespaces : NamespaceFinder).
Implicit Types (ctx : context_Context) (role : string) (pod : Pod).

(** X5. The annotation-match policy allows exactly when the annotation of the
    pod and the requested role both resolve and [Equals] holds of the two
    identities. *)
Theorem annotated_allows_iff pods resolver ctx role pod :
  IsAllowedAssumeRole (NewRequestingAnnotatedRolePolicy pods resolver) ctx role pod
  = Returns (Some allowed) None
  ↔ ∃ annotated requested,
      resolver (PodRole pod) = inl annotated
      ∧ resolver role = inl requested
      ∧ Equals annotated requested = true.
Proof.
  unfold NewRequestingAnnotatedRolePolicy. cbn [IsAllowedAssumeRole].
  unfold RequestingAnnotatedRolePolicy_IsAllowedAssumeRole.
  destruct (resolver (PodRole pod)) as [a|ea]; [|by split; [|intros (? & ? & ? & _)]].
  destruct (resolver role) as [r|er]; [|by split; [|intros (? & ? & _ & ? & _)]].
  destruct (Equals a r) eqn:Heq; split; try done.
  - intros _. by exists a, r.
  - intros (a' & r' & [= <-] & [= <-] & Heq'). congruence.
Qed.

(** X6. The namespace-permission policy allows exactly when the requested role
    resolves, the namespace of the pod is found, its permission expression is
    not empty, the expression handed to [regexp.Compile] compiles, and the
    compiled expression matches the canonical identifier of the requested
    role. *)
Theorem namespace_allows_iff namespaces resolver strict ctx role pod :
  IsAllowedAssumeRole (NewNamespacePermittedRoleNamePolicy strict namespaces resolver)
    ctx role pod = Returns (Some allowed) None
  ↔ ∃ requested ns re,
      resolver role = inl requested
      ∧ namespaces ctx (pod_namespace pod) = inl ns
      ∧ index (ns_annotations ns) AnnotationPermittedKey ≠ ""
      ∧ Compile (pattern strict (index (ns_annotations ns) AnnotationPermittedKey)) = inl re
      ∧ MatchString re (ARN requested) = true.
Proof.
  unfold NewNamespacePermittedRoleNamePolicy. split.
  - destruct (resolver role) as [requested|e] eqn:Hr;
      [|by rewrite (namespace_unresolved _ _ _ _ _ _ _ Hr)].
    destruct (namespaces ctx (pod_namespace pod)) as [ns|e] eqn:Hn;
      [|by rewrite (namespace_not_found _ _ _ _ _ _ _ _ Hr Hn)].
    rewrite (namespace_found _ _ _ _ _ _ _ _ Hr Hn). cbv zeta.
    destruct (String.eqb_spec (index (ns_annotations ns) AnnotationPermittedKey) "")
      as [|Hne]; [done|].
    destruct (Compile _) as [re|] eqn:Hre; [|done].
    destruct (MatchString re (ARN requested)) eqn:Hm; [|done].
    intros _. by exists requested, ns, re.
  - intros (requested & ns & re & Hr & Hn & Hne & Hre & Hm).
    rewrite (namespace_found _ _ _ _ _ _ _ _ Hr Hn). cbv zeta.
    apply String.eqb_neq in Hne. by rewrite Hne, Hre, Hm.
Qed.

(** X7. The two policies of this package together: the composite of the
    annotation-match policy and the namespace-permission policy allows exactly
    when the pod asks for the role it is annotated with and its namespace
    permits the canonical identifier of that role. *)
Theorem annotated_and_permitted pods namespaces resolver strict ctx role pod :
  IsAllowedAssumeRole
    (Policies [NewRequestingAnnotatedRolePolicy pods resolver;
               NewNamespacePermittedRoleNamePolicy strict namespaces resolver])
    ctx role pod = Returns (Some allowed) None
  ↔ ∃ annotated requested ns re,
      resolver (PodRole pod) = inl annotated
      ∧ resolver role = inl requested
      ∧ Equals annotated requested = true
      ∧ namespaces ctx (pod_namespace pod) = inl ns
      ∧ index (ns_annotations ns) AnnotationPermittedKey ≠ ""
      ∧ Compile (pattern strict (index (ns_annotations ns) AnnotationPermittedKey)) = inl re
      ∧ MatchString re (ARN requested) = true.
Proof.
  unfold Policies, NewRequestingAnnotatedRolePolicy, NewNamespacePermittedRoleNamePolicy.
  rewrite !composite_cons. split.
  - destruct (resolver (PodRole pod)) as [a|ea] eqn:Ha;
      [|by rewrite (annotated_unresolved _ _ _ _ _ ea) by by left].
    destruct (resolver role) as [r|er] eqn:Hr;
      [|by rewrite (annotated_unresolved _ _ _ _ _ er) by (right; eauto)].
    rewrite (annotated_resolved _ _ _ _ _ _ _ Ha Hr).
    destruct (Equals a r) eqn:Heq; [|done]. cbn [IsAllowed negb].
    destruct (namespaces ctx (pod_namespace pod)) as [ns|e] eqn:Hn;
      [|by rewrite (namespace_not_found _ _ _ _ _ _ _ _ Hr Hn)].
    rewrite (namespace_found _ _ _ _ _ _ _ _ Hr Hn). cbv zeta.
    destruct (String.eqb_spec (index (ns_annotations ns) AnnotationPermittedKey) "")
      as [|Hne]; [done|].
    destruct (Compile _) as [re|] eqn:Hre; [|done].
    destruct (MatchString re (ARN r)) eqn:Hm; [|done].
    intros _. by exists a, r, ns, re.
  - intros (a & r & ns & re & Ha & Hr & Heq & Hn & Hne & Hre & Hm).
    rewrite (annotated_resolved _ _ _ _ _ _ _ Ha Hr), Heq. cbn [IsAllowed negb].
    rewrite (namespace_found _ _ _ _ _ _ _ _ Hr Hn). cbv zeta.
    apply String.eqb_neq in Hne. by rewrite Hne, Hre, Hm.
Qed.

End SingleLaws.

(** ** Strict mode against the same expression without anchors *)

Section Tighter.
Import regexp.
Local Open Scope nat_scope.
Local Open Scope list_scope.
Implicit Types (t : list ascii) (stack : list frame) (cur f : frame).
Implicit Types (re sub : Regexp) (res operands anchors : list Regexp).

Lemma tighter_refl re : tighter re re.
Proof. by intros s i j. Qed.

Lemma tighter_capture sub' sub : tighter sub' sub → tighter (OpCapture sub') (OpCapture sub).
Proof. intros Hsub s i j Hm. inversion Hm; subst. constructor. by apply Hsub. Qed.

Lemma tighter_star sub' sub : tighter sub' sub → tighter (OpStar sub') (OpStar sub).
Proof.
  intros Hsub s i j Hm. remember (OpStar sub') as re eqn:Hre.
  induction Hm as [| | | | | |? i|? i j k Hij _ Hjk IH| | | | | |]; try discriminate.
  - constructor.
  - injection Hre as ->. eapply MatchesStarMore; [by apply Hsub | by apply IH].
Qed.

Lemma tighter_plus sub' sub : tighter sub' sub → tighter (OpPlus sub') (OpPlus sub).
Proof.
  intros Hsub s i j Hm. inversion Hm; subst.
  eapply MatchesPlus; [by apply Hsub | by eapply tighter_star].
Qed.

Lemma tighter_quest sub' sub : tighter sub' sub → tighter (OpQuest sub') (OpQuest sub).
Proof.
  intros Hsub s i j Hm. inversion Hm; subst; [constructor|].
  apply MatchesQuestOne. by apply Hsub.
Qed.

Lemma tighter_repeat_op c op sub' sub :
  repeat_op c = Some op → tighter sub' sub → tighter (op sub') (op sub).
Proof.
  unfold repeat_op. intros Hop Hsub.
  destruct (Ascii.eqb c "*"); [injection Hop as <-; by apply tighter_star|].
  destruct (Ascii.eqb c "+"); [injection Hop as <-; by apply tighter_plus|].
  destruct (Ascii.eqb c "?"); [injection Hop as <-; by apply tighter_quest|done].
Qed.

Lemma matches_all_app s res1 res2 i k :
  matches_all s (res1 ++ res2) i k ↔ ∃ j, matches_all s res1 i j ∧ matches_all s res2 j k.
Proof.
  revert i. induction res1 as [|re res1 IH]; intros i; cbn [app matches_all].
  - split; [by eauto|]. by intros (j & -> & Hm).
  - split.
    + intros (j & Hm & (j' & Hm1 & Hm2)%IH). exists j'. split; [by exists j | done].
    + intros (j' & (j & Hm & Hm1) & Hm2). exists j. split; [done|]. apply IH. by exists j'.
Qed.

Lemma Forall2_tighter_rev res' res :
  Forall2 tighter res' res → Forall2 tighter (rev res') (rev res).
Proof.
  induction 1 as [|re' re res' res Hre _ IH]; [constructor|].
  cbn [rev]. apply Forall2_app; [done | by constructor].
Qed.

Lemma matches_all_anchors s anchors i k :
  Forall (fun re => is_anchor re = true) anchors → matches_all s anchors i k → i = k.
Proof.
  intros Ha. revert i. induction Ha as [|re anchors Hre _ IH]; intros i; cbn [matches_all].
  - done.
  - intros (j & Hm & Hrest). apply IH in Hrest as <-.
    destruct re; try done; by inversion Hm.
Qed.

Lemma matches_all_tighter s res' res i k :
  Forall2 tighter res' res → matches_all s res' i k → matches_all s res i k.
Proof.
  intros Hres. revert i. induction Hres as [|re' re res' res Hre _ IH]; intros i; [done|].
  cbn [matches_all]. intros (j & Hm & Hrest). exists j. auto.
Qed.

(** Anchors around tighter operands make a tighter concatenation. *)
Lemma concat_tighter before operands anchors res :
  Forall (fun re => is_anchor re = true) before →
  Forall2 tighter operands res →
  Forall (fun re => is_anchor re = true) anchors →
  tighter (concat (before ++ operands ++ anchors)) (concat res).
Proof.
  intros Hb Hops Ha s i k. rewrite !concat_matches, !rev_app_distr.
  intros (j & (j' & Hm3 & Hm2)%matches_all_app & Hm1)%matches_all_app.
  apply matches_all_anchors in Hm1 as <-; [|by apply Forall_rev].
  apply matches_all_anchors in Hm3 as ->; [|by apply Forall_rev].
  apply (matches_all_tighter s (rev operands)); [|done]. by apply Forall2_tighter_rev.
Qed.

Lemma fold_alternate_matches s res re i j :
  Matches s (fold_left OpAlternate res re) i j
  ↔ Exists (fun re' => Matches s re' i j) (re :: res).
Proof.
  revert re. induction res as [|re' res IH]; intros re; cbn [fold_left].
  - rewrite Exists_cons, Exists_nil. split; [by left | by intros [?|[]]].
  - rewrite IH, !Exists_cons. split.
    + intros [Hm | Hm]; [inversion Hm; subst; auto | auto].
    + intros [Hm | [Hm | Hm]]; [left; by constructor | left; by apply MatchesAlternateRight | auto].
Qed.

Lemma Exists_rev_iff (P : Regexp → Prop) res : Exists P (rev res) ↔ Exists P res.
Proof.
  rewrite !Exists_exists. split; intros (re & Hin & Hre); exists re; split; try done.
  - by apply list_elem_of_In, in_rev, list_elem_of_In.
  - by apply list_elem_of_In, in_rev, list_elem_of_In in Hin.
Qed.

Lemma alternate_matches s f i j :
  Matches s (alternate f) i j
  ↔ Exists (fun re => Matches s re i j) (concat (items f) :: alts f).
Proof.
  unfold alternate. rewrite <- (Exists_rev_iff _ (concat (items f) :: alts f)).
  destruct (rev (concat (items f) :: alts f)) as [|re res] eqn:Hrev.
  - apply (f_equal (@length _)) in Hrev. rewrite length_rev in Hrev. done.
  - apply fold_alternate_matches.
Qed.

(** The alternation of a tighter frame, with or without a [$] read last, is
    tighter. *)
Lemma alternate_tighter before f' f :
  Forall (fun re => is_anchor re = true) before →
  frame_tighter f' f →
  tighter (alternate {| alts := alts f'; items := before ++ items f' |}) (alternate f).
Proof.
  intros Hb (Halts & operands & anchors & Hitems & Hops & Ha) s i j.
  rewrite !alternate_matches, !Exists_cons. cbn [alts items]. intros [Hm | Hm].
  - left. revert Hm. rewrite Hitems. by apply concat_tighter.
  - right. clear -Halts Hm. induction Halts as [|re' re res' res Hre _ IH].
    + by apply Exists_nil in Hm.
    + apply Exists_cons in Hm as [Hm | Hm]; apply Exists_cons; [left; by apply Hre | auto].
Qed.

Lemma frame_tighter_push re' re f' f :
  tighter re' re → frame_tighter f' f → frame_tighter (push re' f') (push re f).
Proof.
  intros Hre (Halts & operands & anchors & Hitems & Hops & Ha). split; [done|].
  exists (re' :: operands), anchors. cbn [push items]. rewrite Hitems.
  split; [done|]. split; [by constructor | done].
Qed.

Lemma frame_tighter_bar f' f :
  frame_tighter f' f → frame_tighter (parseVerticalBar f') (parseVerticalBar f).
Proof.
  intros (Halts & operands & anchors & Hitems & Hops & Ha). split.
  - cbn [parseVerticalBar alts]. constructor; [|done].
    rewrite Hitems. by apply (concat_tighter []).
  - exists [], []. by repeat split.
Qed.

Lemma frame_tighter_repeat c op lastRepeat f' f f1 :
  repeat_op c = Some op →
  frame_tighter f' f →
  repeat op lastRepeat f = inl f1 →
  ∃ f1', repeat op lastRepeat f' = inl f1' ∧ frame_tighter f1' f1.
Proof.
  intros Hop (Halts & operands & anchors & Hitems & Hops & Ha)
    (-> & sub & rest & Hf & ->)%repeat_inl.
  rewrite Hf in Hops. inversion Hops as [|sub' ? rest' ? Hsub Hrest]; subst.
  unfold repeat. rewrite Hitems. cbn [app]. eexists. split; [done|].
  split; [done|]. exists (op sub' :: rest'), anchors. cbn [items].
  split; [done|]. split; [|done]. constructor; [|done]. by eapply tighter_repeat_op.
Qed.

Lemma frame_tighter_empty : frame_tighter empty_frame empty_frame.
Proof. split; [constructor|]. exists [], []. by repeat split. Qed.

(** Reading an expression between [^] and [$] gives an expression that is
    tighter than the one read without them. *)
Lemma parse_tighter n t stack cur stack' cur' lastRepeat re :
  length t < n →
  parse t stack cur lastRepeat = inl re →
  Forall2 frame_tighter stack' stack →
  frame_tighter cur' cur →
  ∃ re', parse (t ++ ["$"%char]) stack' cur' lastRepeat = inl re' ∧ tighter re' re.
Proof.
  revert t stack cur stack' cur' lastRepeat.
  induction n as [|n IH]; intros t stack cur stack' cur' lastRepeat Hn Hp Hstack Hcur; [lia|].
  destruct t as [|c t']; cbn [parse app] in Hp |- *.
  { destruct stack; [|done]. injection Hp as <-. inversion Hstack; subst.
    eexists. split; [done|]. by apply (alternate_tighter [OpEndText] cur' cur); [repeat constructor|]. }
  cbn [length] in Hn.
  assert (∀ stack cur stack' cur' lastRepeat,
            parse t' stack cur lastRepeat = inl re →
            Forall2 frame_tighter stack' stack →
            frame_tighter cur' cur →
            ∃ re', parse (t' ++ ["$"%char]) stack' cur' lastRepeat = inl re'
                   ∧ tighter re' re) as IH'
    by (intros; eapply (IH t'); [lia|done..]).
  destruct (Ascii.eqb c "(").
  { rewrite starts_with_dollar. destruct (starts_with "?" t'); [done|].
    apply (IH' _ _ _ _ _ Hp); [by constructor | apply frame_tighter_empty]. }
  destruct (Ascii.eqb c "|"); [by eauto using frame_tighter_bar|].
  destruct (Ascii.eqb c ")").
  { destruct stack as [|outer stack]; [done|].
    inversion Hstack as [|outer' ? stack1 ? Houter Hstack1]; subst.
    apply (IH' _ _ _ _ _ Hp); [done|].
    apply frame_tighter_push; [|done]. apply tighter_capture.
    by apply (alternate_tighter [] cur' cur). }
  destruct (Ascii.eqb c "^"); [by eauto using frame_tighter_push, tighter_refl|].
  destruct (Ascii.eqb c "$"); [by eauto using frame_tighter_push, tighter_refl|].
  destruct (Ascii.eqb c "."); [by eauto using frame_tighter_push, tighter_refl|].
  destruct (Ascii.eqb c "["); [done|].
  destruct (Ascii.eqb c "{"); [done|].
  destruct (Ascii.eqb c "\").
  { destruct t' as [|e t'']; [done|]. cbn [app].
    destruct (is_ascii e && negb (is_alnum e)); [|done].
    eapply (IH t''); [cbn [length] in Hn; lia | done | done |].
    by apply frame_tighter_push; [apply tighter_refl|]. }
  destruct (repeat_op c) as [op|] eqn:Hop.
  - destruct (repeat op lastRepeat cur) as [cur1|] eqn:Hrep; [|done].
    destruct (frame_tighter_repeat _ _ _ _ _ _ Hop Hcur Hrep) as (cur1' & -> & Hcur1).
    destruct t' as [|c' t'']; [exact (IH' _ _ _ _ _ Hp Hstack Hcur1)|]. cbn [app].
    destruct (Ascii.eqb c' "?"); [|by eauto].
    eapply (IH t''); [cbn [length] in Hn; lia | done..].
  - destruct (is_ascii c); [|done]. eauto using frame_tighter_push, tighter_refl.
Qed.

End Tighter.

(** An expression of the fragment that compiles also compiles between the
    anchors of strict mode, to an expression that matches only where it
    does. *)
Lemma strict_tighter (expression : string) (re : regexp.Regexp) :
  regexp.Compile expression = inl re →
  ∃ re', regexp.Compile (pattern true expression) = inl re' ∧ regexp.tighter re' re.
Proof.
  unfold regexp.Compile, pattern. intros Hre.
  rewrite !list_ascii_of_string_append.
  apply (parse_tighter (S (length (list_ascii_of_string expression)))
           (list_ascii_of_string expression) [] regexp.empty_frame
           [] (regexp.push regexp.OpBeginText regexp.empty_frame) false re);
    [lia | done | constructor |].
  split; [constructor|]. exists [], [regexp.OpBeginText]. by repeat constructor.
Qed.

(** X10. Strict mode permits nothing that the same expression does not permit
    without it: when the expression of the namespace compiles as it is written
    and the strict policy allows a role, the policy that is not strict allows
    it too. *)
Theorem strict_allows_lax_allows (namespaces : NamespaceFinder) (resolver : ARNResolver)
  (role : string) (pod : Pod) (ns : Namespace) (re : regexp.Regexp) :
  namespaces tt (pod_namespace pod) = inl ns →
  regexp.Compile (index (ns_annotations ns) AnnotationPermittedKey) = inl re →
  IsAllowedAssumeRole (NewNamespacePermittedRoleNamePolicy true namespaces resolver) tt role pod
  = Returns (Some allowed) None →
  IsAllowedAssumeRole (NewNamespacePermittedRoleNamePolicy false namespaces resolver) tt role pod
  = Returns (Some allowed) None.
Proof.
  intros Hn Hre. unfold NewNamespacePermittedRoleNamePolicy.
  destruct (resolver role) as [requested|e] eqn:Hr;
    [|by rewrite (namespace_unresolved _ _ _ _ _ _ _ Hr)].
  rewrite !(namespace_found _ _ _ _ _ _ _ _ Hr Hn). cbv zeta.
  destruct (String.eqb _ ""); [done|].
  destruct (strict_tighter _ _ Hre) as (re' & Hre' & Htighter).
  cbn [Compile externals]. unfold compile. rewrite Hre'. cbn [pattern]. rewrite Hre.
  change (@MatchString externals) with regexp.MatchString.
  destruct (regexp.MatchString re' (ARN requested)) eqn:Hm'; [|done]. intros _.
  apply MatchString_substring in Hm' as (i & j & Hij & Hm).
  assert (regexp.MatchString re (ARN requested) = true) as ->; [|done].
  apply MatchString_substring. exists i, j. split; [done|]. by apply Htighter.
Qed.

(** ** The further properties at concrete inputs *)

Lemma composite_allows_iff_witness :
  IsAllowedAssumeRole (H:=externals)
    (Policies [NewRequestingAnnotatedRolePolicy (H:=externals) tt resolver;
               NewNamespacePermittedRoleNamePolicy true (finder (cluster "team-.*")) verbatim])
    tt "team-a" (pod_of "team" "team-a") = Returns (Some allowed) None.
Proof.
  apply (composite_allows_iff (H:=externals)).
  repeat constructor; by exists allowed.
Defined.

Lemma composite_allows_permutation_witness :
  IsAllowedAssumeRole (H:=externals)
    (Policies [NewNamespacePermittedRoleNamePolicy true (finder (cluster "team-.*")) verbatim;
               NewRequestingAnnotatedRolePolicy (H:=externals) tt resolver])
    tt "team-a" (pod_of "team" "team-a") = Returns (Some allowed) None.
Proof.
  apply (composite_allows_permutation (H:=externals)
           [NewRequestingAnnotatedRolePolicy (H:=externals) tt resolver;
            NewNamespacePermittedRoleNamePolicy true (finder (cluster "team-.*")) verbatim]).
  - apply perm_swap.
  - reflexivity.
Defined.

(** A pod whose namespace is not found: the error comes from the second
    member, the first member allows. *)
Lemma composite_outcome_origin_witness :
  let annotated := NewRequestingAnnotatedRolePolicy (H:=externals) tt resolver in
  let permitted := NewNamespacePermittedRoleNamePolicy true (finder (cluster "team-.*")) resolver in
  ∃ pre p post d,
    [annotated; permitted; panicking] = (pre ++ p :: post)%list
    ∧ Forall (allows tt "team-a" (pod_of "nowhere" "team-a")) pre
    ∧ IsAllowedAssumeRole p tt "team-a" (pod_of "nowhere" "team-a")
      = Returns d (Some (ErrorString "namespace not found")).
Proof.
  intros annotated permitted.
  apply (proj1 (composite_outcome_origin (H:=externals) [annotated; permitted; panicking]
                  tt "team-a" (pod_of "nowhere" "team-a"))).
  reflexivity.
Defined.

Lemma annotated_allows_iff_witness :
  IsAllowedAssumeRole (H:=externals) (NewRequestingAnnotatedRolePolicy (H:=externals) tt resolver)
    tt "readonly" (pod_of "team" "arn:aws:iam::111:role/readonly")
  = Returns (Some allowed) None.
Proof.
  apply (annotated_allows_iff (H:=externals)).
  exists {| Name := "readonly"; ARN := "arn:aws:iam::111:role/readonly" |},
         {| Name := "readonly"; ARN := "arn:aws:iam::111:role/readonly" |}.
  by vm_compute.
Defined.

Lemma namespace_allows_iff_witness :
  ∃ requested ns re,
    resolver "team-a" = inl requested
    ∧ finder (cluster "team-.*") tt "team" = inl ns
    ∧ index (ns_annotations ns) "iam.amazonaws.com/permitted" ≠ ""
    ∧ compile (pattern false (index (ns_annotations ns) "iam.amazonaws.com/permitted")) = inl re
    ∧ regexp.MatchString re (ARN requested) = true.
Proof.
  apply (namespace_allows_iff (H:=externals) (finder (cluster "team-.*")) resolver false
           tt "team-a" (pod_of "team" "team-a")).
  reflexivity.
Defined.

Lemma annotated_and_permitted_witness :
  IsAllowedAssumeRole (H:=externals)
    (Policies [NewRequestingAnnotatedRolePolicy (H:=externals) tt resolver;
               NewNamespacePermittedRoleNamePolicy true
                 (finder (cluster "arn:aws:iam::111:role/team-.*")) resolver])
    tt "team-a" (pod_of "team" "arn:aws:iam::111:role/team-a")
  = Returns (Some allowed) None.
Proof.
  apply (annotated_and_permitted (H:=externals)).
  exists {| Name := "team-a"; ARN := "arn:aws:iam::111:role/team-a" |},
         {| Name := "team-a"; ARN := "arn:aws:iam::111:role/team-a" |},
         (permitting "arn:aws:iam::111:role/team-.*"),
         (compiled "^arn:aws:iam::111:role/team-.*$").
  by vm_compute.
Defined.

(** The roles of a team, in strict mode: the expression is matched against the
    whole identifier, so a role of another account is denied. *)
Lemma strict_policy_full_match_witness :
  let expression := "arn:aws:iam::111:role/team-.*" in
  IsAllowedAssumeRole
    (NewNamespacePermittedRoleNamePolicy true (finder (cluster expression)) resolver)
    tt "arn:aws:iam::222:role/team-a" (pod_of "team" "team-a")
  = Returns
      (Some (if regexp.FullMatch (compiled expression) "arn:aws:iam::222:role/team-a"
             then allowed
             else namespacePolicyForbidden expression "arn:aws:iam::222:role/team-a")) None.
Proof.
  intros expression.
  apply (strict_policy_full_match (finder (cluster expression)) resolver
           "arn:aws:iam::222:role/team-a" (pod_of "team" "team-a")
           {| Name := "team-a"; ARN := "arn:aws:iam::222:role/team-a" |}
           (permitting expression) (compiled expression)); by vm_compute.
Defined.

Lemma lax_policy_substring_witness :
  let identifier := list_ascii_of_string "arn:aws:iam::111:role/team-a" in
  ∃ i j, (i ≤ j ≤ length identifier)%nat ∧ regexp.Matches identifier (compiled "team-") i j.
Proof.
  intros identifier.
  apply (lax_policy_substring (finder (cluster "team-")) resolver "team-a"
           (pod_of "team" "team-a")
           {| Name := "team-a"; ARN := "arn:aws:iam::111:role/team-a" |}
           (permitting "team-") (compiled "team-")); by vm_compute.
Defined.

Lemma strict_allows_lax_allows_witness :
  IsAllowedAssumeRole
    (NewNamespacePermittedRoleNamePolicy false (finder (cluster "foo|bar")) verbatim)
    tt "foobar" (pod_of "team" "foo")
  = Returns (Some allowed) None.
Proof.
  apply (strict_allows_lax_allows (finder (cluster "foo|bar")) verbatim "foobar"
           (pod_of "team" "foo") (permitting "foo|bar") (compiled "foo|bar"));
    by vm_compute.
Defined.
